(** * Optimistic message lifecycle of [Message.tsx]

    A shallow embedding of the React component [Message] (first variant of
    [src/Components/Message.tsx], the one that keeps [optimisticMessages])
    and the properties of its send / retry / cancel / refresh / stream
    handlers and of the merged list [allMessages] that it renders.

    Conventions of the embedding:
    - the component state (the [useState] cells) is the record [State];
      [setX] with an updater function is a function on [State];
    - an [async] handler is cut at its [await]s: every piece between two
      awaits is a function on [State]; what the handler captured in its
      closure when it was invoked is a record passed to the later pieces;
    - results of the collaborators (transport [send], history [messages()],
      [newDm], the clock) are inputs of the pieces;
    - dates are integers (milliseconds since the epoch, [getTime()]); what
      [new Date(x).getTime()] gives is an integer or NaN ([None]);
    - strings are [string]; a character stands for one code unit below 256. *)

From stdpp Require Import base list strings pretty sorting.
From Stdlib Require Import ZArith Lia.

Local Open Scope Z_scope.

(** ** Data model *)

(** [status: "unpublished" | "published" | "failed"] *)
Inductive Status : Set := Unpublished | Published | Failed.

Global Instance Status_eq_dec : EqDecision Status.
Proof. solve_decision. Defined.

(** [interface OptimisticMessage] *)
Record OptimisticMessage : Set := mkOptimistic {
  om_id : string;
  om_content : string;
  om_senderAddress : string;
  om_status : Status;
  om_sentAt : Z
}.

Global Instance OptimisticMessage_eq_dec : EqDecision OptimisticMessage.
Proof. solve_decision. Defined.

(** An element of [conversationMessages]: a message of the network client,
    of which the component reads [id], [content], [senderAddress], [sent].
    The message is untyped and [sent] is read only through
    [new Date(sent).getTime()]: [cm_sent] is that time value, [None] when it
    is NaN ([sent] missing, not a date, or beyond the range of dates). *)
Record ConfirmedMessage : Set := mkConfirmed {
  cm_id : string;
  cm_content : string;
  cm_senderAddress : string;
  cm_sent : option Z
}.

Global Instance ConfirmedMessage_eq_dec : EqDecision ConfirmedMessage.
Proof. solve_decision. Defined.

(** An element of [allMessages]. A confirmed message is spread as it is and
    has no [status] field ([None]); an optimistic one is copied field by
    field, [sentAt] becoming [sent]. [dm_sent] is the time value of
    [new Date(sent)], [None] for NaN. *)
Record DisplayMessage : Set := mkDisplay {
  dm_id : string;
  dm_content : string;
  dm_senderAddress : string;
  dm_sent : option Z;
  dm_status : option Status
}.

Global Instance DisplayMessage_eq_dec : EqDecision DisplayMessage.
Proof. solve_decision. Defined.

(** [interface Contact] *)
Record Contact : Set := mkContact {
  identity : string;
  inboxId : string
}.

(** A conversation of the network client: an opaque handle. *)
Inductive Conversation : Set := Conv (handle : nat).

Global Instance Conversation_eq_dec : EqDecision Conversation.
Proof. solve_decision. Defined.

(** The [useState] cells the handlers read and write. [client] is [true]
    when the cell holds a client. *)
Record State : Set := mkState {
  client : bool;
  accountIdentifier : option string;
  contacts : list Contact;
  activeConversation : option Conversation;
  messageContent : string;
  conversationMessages : list ConfirmedMessage;
  optimisticMessages : list OptimisticMessage;
  isSending : bool
}.

(** *** State setters *)

Definition setActiveConversation (c : option Conversation) (s : State) : State :=
  mkState (client s) (accountIdentifier s) (contacts s) c (messageContent s)
          (conversationMessages s) (optimisticMessages s) (isSending s).

Definition setMessageContent (v : string) (s : State) : State :=
  mkState (client s) (accountIdentifier s) (contacts s) (activeConversation s) v
          (conversationMessages s) (optimisticMessages s) (isSending s).

Definition setConversationMessages
    (f : list ConfirmedMessage → list ConfirmedMessage) (s : State) : State :=
  mkState (client s) (accountIdentifier s) (contacts s) (activeConversation s)
          (messageContent s) (f (conversationMessages s)) (optimisticMessages s)
          (isSending s).

Definition setOptimisticMessages
    (f : list OptimisticMessage → list OptimisticMessage) (s : State) : State :=
  mkState (client s) (accountIdentifier s) (contacts s) (activeConversation s)
          (messageContent s) (conversationMessages s) (f (optimisticMessages s))
          (isSending s).

Definition setIsSending (b : bool) (s : State) : State :=
  mkState (client s) (accountIdentifier s) (contacts s) (activeConversation s)
          (messageContent s) (conversationMessages s) (optimisticMessages s) b.

(** ** Strings: [trim] and the template literal of the temporary id *)

(** White space and line terminators that [String.prototype.trim] strips,
    among the code units below 256: TAB, LF, VT, FF, CR, SP, NBSP. *)
Definition isWhiteSpace (c : Ascii.ascii) : bool :=
  let n := Ascii.nat_of_ascii c in
  ((9 <=? n)%nat && (n <=? 13)%nat) || (n =? 32)%nat || (n =? 160)%nat.

Fixpoint trimStart (s : string) : string :=
  match s with
  | EmptyString => EmptyString
  | String c r => if isWhiteSpace c then trimStart r else s
  end.

Fixpoint trimEnd (s : string) : string :=
  match s with
  | EmptyString => EmptyString
  | String c r =>
      match trimEnd r with
      | EmptyString => if isWhiteSpace c then EmptyString else String c EmptyString
      | r' => String c r'
      end
  end.

Definition trim (s : string) : string := trimEnd (trimStart s).

Fixpoint allWhiteSpace (s : string) : bool :=
  match s with
  | EmptyString => true
  | String c r => isWhiteSpace c && allWhiteSpace r
  end.

(** [!messageContent.trim()]: the empty string is the only falsy string. *)
Definition blank (s : string) : bool := bool_decide (trim s = "").

(** [`optimistic-${Date.now()}`] *)
Definition tempIdOf (now : Z) : string := "optimistic-" +:+ pretty now.

(** ** The merged list [allMessages] *)

(** [Array.prototype.sort] with a comparator: a stable sort; [a] goes before
    [b] when [cmp a b < 0], and equal elements keep their order. With a
    comparator that is the difference of a key the result of a stable sort
    does not depend on the algorithm ([sort_unique] below); it is written
    here as insertion from the right. With NaN among the values of the
    comparator the language leaves the order to the engine: what is proved
    of the order below is for valid dates, or for lists that no comparison
    tells to change. *)
Section Sort.
Context {A : Type} (cmp : A → A → Z).

Fixpoint sortInsert (x : A) (l : list A) : list A :=
  match l with
  | [] => [x]
  | y :: l' => if decide (cmp x y ≤ 0) then x :: l else y :: sortInsert x l'
  end.

Definition sort (l : list A) : list A := foldr sortInsert [] l.
End Sort.

Definition ofConfirmed (m : ConfirmedMessage) : DisplayMessage :=
  mkDisplay (cm_id m) (cm_content m) (cm_senderAddress m) (cm_sent m) None.

(** [optimisticMessages.map((msg) => ({ id: msg.id, ..., status: msg.status }))] *)
Definition ofOptimistic (msg : OptimisticMessage) : DisplayMessage :=
  mkDisplay (om_id msg) (om_content msg) (om_senderAddress msg)
            (Some (om_sentAt msg)) (Some (om_status msg)).

(** [(a, b) => new Date(a.sent).getTime() - new Date(b.sent).getTime()]:
    NaN as soon as one of the two time values is NaN. The sort reads only
    the sign of the difference, which is that of the exact difference. *)
Definition bySent (a b : DisplayMessage) : option Z :=
  match dm_sent a, dm_sent b with
  | Some ta, Some tb => Some (ta - tb)
  | _, _ => None
  end.

(** What the sort makes of the value of the comparator: NaN counts as 0. *)
Definition sortCompare {A : Type} (comparefn : A → A → option Z) (x y : A) : Z :=
  default 0 (comparefn x y).

(** The concatenation that is sorted. *)
Definition combined (s : State) : list DisplayMessage :=
  (ofConfirmed <$> conversationMessages s) ++ (ofOptimistic <$> optimisticMessages s).

Definition allMessages (s : State) : list DisplayMessage :=
  sort (sortCompare bySent) (combined s).

(** ** Handlers *)

(** Result of an awaited call of a collaborator that returns nothing. *)
Inductive Outcome : Set := Resolved | Rejected.

(** [prev.map((msg) => msg.id === tempId ? { ...msg, status } : msg)] *)
Definition withStatus (st : Status) (msg : OptimisticMessage) : OptimisticMessage :=
  mkOptimistic (om_id msg) (om_content msg) (om_senderAddress msg) st (om_sentAt msg).

Definition markStatus (messageId : string) (st : Status)
    (prev : list OptimisticMessage) : list OptimisticMessage :=
  (λ msg, if decide (om_id msg = messageId) then withStatus st msg else msg) <$> prev.

(** *** [loadMessages] *)

(** The piece after [await conversation.messages()] resolved. *)
Definition loadMessages_resolved (messages : list ConfirmedMessage) (s : State) : State :=
  setOptimisticMessages (λ prev, filter (λ msg, om_status msg ≠ Published) prev)
    (setConversationMessages (λ _, messages) s).

(** [history] is what [conversation.messages()] gave: [None] when it threw
    (the [catch] only logs). *)
Definition loadMessages (conversation : option Conversation)
    (history : option (list ConfirmedMessage)) (s : State) : State :=
  match conversation with
  | None => s
  | Some _ =>
      match history with
      | Some messages => loadMessages_resolved messages s
      | None => s
      end
  end.

(** *** [createNewDM], [createNewGroup] *)

(** [created] is what [client.conversations.newDm] gave ([None]: it threw). *)
Definition createNewDM (created : option Conversation)
    (history : option (list ConfirmedMessage)) (s : State) : State :=
  if client s then
    match created with
    | Some conversation =>
        loadMessages (Some conversation) history
          (setActiveConversation (Some conversation) s)
    | None => s
    end
  else s.

Definition createNewGroup (created : option Conversation)
    (history : option (list ConfirmedMessage)) (s : State) : State :=
  if client s && bool_decide (2 ≤ length (contacts s))%nat then
    match created with
    | Some group =>
        loadMessages (Some group) history (setActiveConversation (Some group) s)
    | None => s
    end
  else s.

(** *** [sendMessage] *)

(** What a running [sendMessage] holds in its closure. *)
Record SendCall : Set := mkSendCall {
  tempId : string;
  sendContent : string;
  sendConversation : Conversation
}.

(** From the invocation to [await activeConversation.send(messageContent)].
    [now] is [Date.now()], [date] is [new Date()]. [None]: the guard
    returned, nothing was done and the transport was not called. *)
Definition sendMessage_begin (now date : Z) (s : State) : option (SendCall * State) :=
  match activeConversation s with
  | None => None
  | Some conversation =>
      if blank (messageContent s) || isSending s then None
      else
        let optimisticMessage :=
          mkOptimistic (tempIdOf now) (messageContent s)
                       (default "" (accountIdentifier s)) Unpublished date in
        Some (mkSendCall (tempIdOf now) (messageContent s) conversation,
              setMessageContent ""
                (setOptimisticMessages (λ prev, prev ++ [optimisticMessage])
                   (setIsSending true s)))
  end.

(** The transport resolved: status [published], then [loadMessages]. *)
Definition sendMessage_sent (call : SendCall)
    (history : option (list ConfirmedMessage)) (s : State) : State :=
  setIsSending false
    (loadMessages (Some (sendConversation call)) history
       (setOptimisticMessages (markStatus (tempId call) Published) s)).

(** The transport threw: the [catch] block, then [finally]. *)
Definition sendMessage_failed (call : SendCall) (s : State) : State :=
  setIsSending false (setOptimisticMessages (markStatus (tempId call) Failed) s).

(** A whole run of [sendMessage] with nothing else in between. *)
Definition sendMessage (now date : Z) (transport : Outcome)
    (history : option (list ConfirmedMessage)) (s : State) : State :=
  match sendMessage_begin now date s with
  | None => s
  | Some (call, s1) =>
      match transport with
      | Resolved => sendMessage_sent call history s1
      | Rejected => sendMessage_failed call s1
      end
  end.

(** *** [retryFailedMessage], [cancelFailedMessage] *)

Record RetryCall : Set := mkRetryCall {
  retryId : string;
  failedMessage : OptimisticMessage;
  retryConversation : Conversation
}.

(** From the invocation to [await activeConversation.send(failedMessage.content)]. *)
Definition retryFailedMessage_begin (messageId : string) (s : State)
    : option (RetryCall * State) :=
  match find (λ msg, bool_decide (om_id msg = messageId)) (optimisticMessages s),
        activeConversation s with
  | Some found, Some conversation =>
      Some (mkRetryCall messageId found conversation,
            setOptimisticMessages (markStatus messageId Unpublished) s)
  | _, _ => None
  end.

Definition retryFailedMessage_sent (call : RetryCall)
    (history : option (list ConfirmedMessage)) (s : State) : State :=
  loadMessages (Some (retryConversation call)) history
    (setOptimisticMessages (markStatus (retryId call) Published) s).

Definition retryFailedMessage_failed (call : RetryCall) (s : State) : State :=
  setOptimisticMessages (markStatus (retryId call) Failed) s.

Definition retryFailedMessage (messageId : string) (transport : Outcome)
    (history : option (list ConfirmedMessage)) (s : State) : State :=
  match retryFailedMessage_begin messageId s with
  | None => s
  | Some (call, s1) =>
      match transport with
      | Resolved => retryFailedMessage_sent call history s1
      | Rejected => retryFailedMessage_failed call s1
      end
  end.

Definition cancelFailedMessage (messageId : string) (s : State) : State :=
  setOptimisticMessages (λ prev, filter (λ msg, om_id msg ≠ messageId) prev) s.

(** The Retry and Cancel buttons are rendered for an entry of [allMessages]
    exactly when [message.status === "failed"]. *)
Definition buttonsOffered (message : DisplayMessage) : bool :=
  bool_decide (dm_status message = Some Failed).

(** *** The stream effect *)

(** One run of the effect's [streamMessages]: the loop reads the
    [conversationMessages] and [optimisticMessages] of the render in which
    the effect ran, for as long as it runs. *)
Record StreamLoop : Set := mkStreamLoop {
  seenConversationMessages : list ConfirmedMessage;
  seenOptimisticMessages : list OptimisticMessage
}.

(** The effect runs when [client] and [activeConversation] are set; it is run
    again whenever one of its dependencies changes, and its cleanup stops
    nothing. *)
Definition streamEffect (s : State) : option StreamLoop :=
  if client s && bool_decide (is_Some (activeConversation s)) then
    Some (mkStreamLoop (conversationMessages s) (optimisticMessages s))
  else None.

(** [array.some((m) => m.id === message.id)] *)
Definition someId {M : Type} (idOf : M → string) (messageId : string) (l : list M) : bool :=
  existsb (λ m, bool_decide (idOf m = messageId)) l.

(** The body of [for await (const message of stream)]. *)
Definition onStreamMessage (loop : StreamLoop) (message : ConfirmedMessage)
    (s : State) : State :=
  if negb (someId cm_id (cm_id message) (seenConversationMessages loop))
     && negb (someId om_id (cm_id message) (seenOptimisticMessages loop))
  then setConversationMessages (λ prev, prev ++ [message]) s
  else s.

(** One message of the network reaches every loop that is running. *)
Definition deliver (loops : list StreamLoop) (message : ConfirmedMessage)
    (s : State) : State :=
  foldl (λ acc loop, onStreamMessage loop message acc) s loops.

(** *** What can happen while a transport call is awaited *)




(** ** Vocabulary of the properties *)

(** Ascending in [key]. *)
Definition ascendingBy {A : Type} (key : A → Z) : relation A :=
  λ a b, key a ≤ key b.

(** Every confirmed message has a [sent] that is a date. *)
Definition validSent (s : State) : Prop :=
  ∀ c, c ∈ conversationMessages s → is_Some (cm_sent c).

(** The time value of an entry, for entries that have one. *)
Definition sentKey (m : DisplayMessage) : Z := default 0 (dm_sent m).

(** The comparator does not put [a] after [b]: the difference of their
    time values is not above 0, or is NaN. *)
Definition notAbove (a b : DisplayMessage) : Prop :=
  sortCompare bySent a b ≤ 0.

(** Entries of a merged list with the given content and sender. *)
Definition entriesFor (content sender : string) (l : list DisplayMessage)
    : list DisplayMessage :=
  filter (λ m, dm_content m = content ∧ dm_senderAddress m = sender) l.

(** A confirmed message with the content and the sender of [p], sent at or
    after the creation of [p]. *)
Definition matches (c : ConfirmedMessage) (p : OptimisticMessage) : Prop :=
  cm_content c = om_content p ∧ cm_senderAddress c = om_senderAddress p ∧
  ∃ t, cm_sent c = Some t ∧ om_sentAt p ≤ t.

(** The deduplication rule: a pending message matched by a confirmed one is
    left out of the merged list, which then has one entry for it. *)
Definition excludesMatched (s : State) : Prop :=
  ∀ p c, p ∈ optimisticMessages s → c ∈ conversationMessages s → matches c p →
    (ofOptimistic p ∉ allMessages s) ∧
    length (entriesFor (om_content p) (om_senderAddress p) (allMessages s)) = 1%nat.

(** Ties of the timestamp broken by the lexical order of the identifier,
    among messages of one kind. *)
Definition tiesByIdentifier (s : State) : Prop :=
  ∀ i j a b, allMessages s !! i = Some a → allMessages s !! j = Some b →
    dm_sent a = dm_sent b → dm_status a = dm_status b →
    String.ltb (dm_id a) (dm_id b) = true → (i < j)%nat.

(** Opening a conversation leaves nothing of the pending set. *)
Definition discardsPending (s : State) (conversation : Conversation)
    (history : option (list ConfirmedMessage)) : Prop :=
  ∀ p, p ∈ optimisticMessages s →
    let s' := createNewDM (Some conversation) history s in
    (p ∉ optimisticMessages s') ∧ (ofOptimistic p ∉ allMessages s').

(** Cancel leaves a pending message that is not [Failed] in place. *)
Definition cancelOnlyFailed (s : State) (messageId : string) : Prop :=
  ∀ p, p ∈ optimisticMessages s → om_id p = messageId → om_status p ≠ Failed →
    p ∈ optimisticMessages (cancelFailedMessage messageId s).

(** Retry does nothing unless a [Failed] pending message has the id. *)
Definition retryOnlyFailed (s : State) (messageId : string) : Prop :=
  (¬ ∃ p, p ∈ optimisticMessages s ∧ om_id p = messageId ∧ om_status p = Failed) →
  retryFailedMessage_begin messageId s = None.

(** Two sends that were both accepted have different temporary ids. *)
Definition freshIds (now1 date1 now2 date2 : Z) (s1 s2 : State) : Prop :=
  ∀ call1 s1' call2 s2',
    sendMessage_begin now1 date1 s1 = Some (call1, s1') →
    sendMessage_begin now2 date2 s2 = Some (call2, s2') →
    tempId call1 ≠ tempId call2.

(** ** States used as examples *)

(** Connected as [0xA], a conversation open, [hi] typed. *)
Definition typedHi : State :=
  mkState true (Some "0xA") [] (Some (Conv 1)) "hi" [] [] false.

Definition hiFromNetwork : ConfirmedMessage :=
  mkConfirmed "m1" "hi" "0xA" (Some 7).

(** [hi] sent at 5: the transport resolved, the refresh that follows threw,
    then the stream delivered the message of the network. *)
Definition publishedAndStreamed : State :=
  onStreamMessage (mkStreamLoop [] []) hiFromNetwork
    (sendMessage 5 5 Resolved None typedHi).

(** [hi] sent at 5, the transport threw. *)
Definition failedHi : State := sendMessage 5 5 Rejected None typedHi.

(** [hi] sent at 5, the transport call not yet settled. *)
Definition sendingHi : State :=
  from_option snd typedHi (sendMessage_begin 5 5 typedHi).

(** A history with two messages of one timestamp. *)
Definition tiedHistory : list ConfirmedMessage :=
  [mkConfirmed "b" "first" "0xB" (Some 3); mkConfirmed "a" "second" "0xB" (Some 3)].

Definition tiedState : State :=
  createNewDM (Some (Conv 2)) (Some tiedHistory) typedHi.

(** A history whose first message has a [sent] that is no date. *)
Definition undatedHistory : list ConfirmedMessage :=
  [mkConfirmed "far" "later" "0xB" None; mkConfirmed "near" "sooner" "0xB" (Some 3)].

Definition undatedState : State :=
  createNewDM (Some (Conv 2)) (Some undatedHistory) typedHi.

(** A conversation open and nothing loaded. *)
Definition emptyConversation : State :=
  mkState true (Some "0xA") [] (Some (Conv 1)) "" [] [] false.

(** ** The rest of the component *)

(** *** Addresses *)

(** [[a-fA-F0-9]] *)
Definition isHexDigit (c : Ascii.ascii) : bool :=
  let n := Ascii.nat_of_ascii c in
  ((48 <=? n)%nat && (n <=? 57)%nat) || ((65 <=? n)%nat && (n <=? 70)%nat)
  || ((97 <=? n)%nat && (n <=? 102)%nat).

(** [[a-fA-F0-9]{n}$] *)
Fixpoint hexDigits (n : nat) (s : string) : bool :=
  match n, s with
  | O, EmptyString => true
  | S n', String c r => isHexDigit c && hexDigits n' r
  | _, _ => false
  end.

(** [/^0x[a-fA-F0-9]{40}$/.test(address)]; without the [m] flag [$] is the
    end of the string. *)
Definition isValidEthereumAddress (address : string) : bool :=
  match address with
  | String c0 (String c1 r) =>
      bool_decide (String c0 (String c1 EmptyString) = "0x") && hexDigits 40 r
  | _ => false
  end.

(** [String.prototype.toLowerCase] on the code units below 256: the letters
    A-Z, and the letters of U+00C0-U+00DE but the sign U+00D7. *)
Definition lowerCodeUnit (c : Ascii.ascii) : Ascii.ascii :=
  let n := Ascii.nat_of_ascii c in
  if ((65 <=? n)%nat && (n <=? 90)%nat) || ((192 <=? n)%nat && (n <=? 214)%nat)
     || ((216 <=? n)%nat && (n <=? 222)%nat)
  then Ascii.ascii_of_nat (n + 32) else c.

Fixpoint toLowerCase (s : string) : string :=
  match s with
  | EmptyString => EmptyString
  | String c r => String (lowerCodeUnit c) (toLowerCase r)
  end.

(** *** The cells that the message handlers do not use *)

Record Component : Set := mkComponent {
  core : State;
  signer : bool;
  loading : bool;
  error : option string;
  newContactAddress : string
}.

Definition withCore (f : State → State) (c : Component) : Component :=
  mkComponent (f (core c)) (signer c) (loading c) (error c) (newContactAddress c).

Definition setSigner (b : bool) (c : Component) : Component :=
  mkComponent (core c) b (loading c) (error c) (newContactAddress c).

Definition setLoading (b : bool) (c : Component) : Component :=
  mkComponent (core c) (signer c) b (error c) (newContactAddress c).

Definition setError (e : option string) (c : Component) : Component :=
  mkComponent (core c) (signer c) (loading c) e (newContactAddress c).

Definition setNewContactAddress (v : string) (c : Component) : Component :=
  mkComponent (core c) (signer c) (loading c) (error c) v.

Definition setClient (b : bool) (s : State) : State :=
  mkState b (accountIdentifier s) (contacts s) (activeConversation s)
          (messageContent s) (conversationMessages s) (optimisticMessages s)
          (isSending s).

Definition setAccountIdentifier (a : option string) (s : State) : State :=
  mkState (client s) a (contacts s) (activeConversation s)
          (messageContent s) (conversationMessages s) (optimisticMessages s)
          (isSending s).

Definition setContacts (f : list Contact → list Contact) (s : State) : State :=
  mkState (client s) (accountIdentifier s) (f (contacts s)) (activeConversation s)
          (messageContent s) (conversationMessages s) (optimisticMessages s)
          (isSending s).

(** The component before anything happened. *)
Definition initial : Component :=
  mkComponent (mkState false None [] None "" [] [] false) false false None "".

(** [if (!accountIdentifier || !signer || !client)] shows the connect
    screen; [connected] is its negation. *)
Definition connected (c : Component) : bool :=
  bool_decide (is_Some (accountIdentifier (core c))) && signer c && client (core c).

(** *** Awaited calls that give a value *)

(** What a [catch] receives: an [Error] with its message, or something
    that is not an [Error]. *)
Inductive Thrown : Set := ErrorObject (message : string) | OtherValue.

Inductive Settled (A : Type) : Type :=
  | Value (a : A)
  | Raised (err : Thrown).
Arguments Value {A} a.
Arguments Raised {A} err.

(** [err instanceof Error ? err.message : "Unknown error"] *)
Definition errorMessage (err : Thrown) : string :=
  match err with
  | ErrorObject message => message
  | OtherValue => "Unknown error"
  end.

(** *** [connectWallet] *)

(** What the wallet and the network client answer during one run. *)
Record Wallet : Type := mkWallet {
  ethereum : bool;
  requestAccounts : Settled (list string);
  getSigner : Settled unit;
  createClient : Settled unit
}.

(** The [catch] block and [finally]. *)
Definition connectWallet_caught (err : Thrown) (c : Component) : Component :=
  setLoading false
    (withCore (setClient false) (setError (Some (errorMessage err)) c)).

Definition connectWallet (w : Wallet) (c : Component) : Component :=
  let c0 := setError None (setLoading true c) in
  if negb (ethereum w) then
    connectWallet_caught (ErrorObject "Ethereum provider not detected") c0
  else
    match requestAccounts w with
    | Raised err => connectWallet_caught err c0
    | Value [] => connectWallet_caught (ErrorObject "No accounts found") c0
    | Value (address :: _) =>
        let c1 := withCore (setAccountIdentifier (Some address)) c0 in
        match getSigner w with
        | Raised err => connectWallet_caught err c1
        | Value _ =>
            let c2 := setSigner true c1 in
            match createClient w with
            | Raised err => connectWallet_caught err c2
            | Value _ => setLoading false (withCore (setClient true) c2)
            end
        end
    end.

(** Every step of [connectWallet] went well. *)
Definition walletAnswers (w : Wallet) : bool :=
  ethereum w &&
  match requestAccounts w, getSigner w, createClient w with
  | Value (_ :: _), Value _, Value _ => true
  | _, _, _ => false
  end.

(** *** [checkContactReachability], [addContact] *)

(** [canMessage] is what [client.canMessage] gave, read as a condition. The
    function catches what is thrown and never throws. *)
Definition checkContactReachability (canMessage : Settled bool) (s : State) : bool :=
  if client s then
    match canMessage with
    | Value reachable => reachable
    | Raised _ => false
    end
  else false.

(** [contacts.some((c) => c.identity.toLowerCase() === normalizedAddress)] *)
Definition contactExists (address : string) (l : list Contact) : bool :=
  existsb (λ c, bool_decide (toLowerCase (identity c) = toLowerCase address)) l.

(** A run of [addContact]: the component after it and the text of the alert
    it showed. Its own [catch] block is not entered: the two functions it
    awaits catch what their calls throw. *)
Definition addContact (canMessage : Settled bool) (created : option Conversation)
    (history : option (list ConfirmedMessage)) (c : Component)
    : Component * option string :=
  let address := newContactAddress c in
  if blank address then (c, None)
  else if negb (isValidEthereumAddress address) then
    (c, Some "Please enter a valid Ethereum address")
  else if contactExists address (contacts (core c)) then
    (c, Some "Contact already exists")
  else if checkContactReachability canMessage (core c) then
    let newContact := mkContact address address in
    (setLoading false
       (withCore (createNewDM created history)
          (setNewContactAddress ""
             (withCore (setContacts (λ prev, prev ++ [newContact]))
                (setLoading true c)))),
     None)
  else
    (setLoading false (setLoading true c),
     Some "This address is not reachable on XMTP. The user may need to activate their XMTP identity.").

(** *** What is rendered *)

(** [disabled={!messageContent.trim() || isSending}] of the Send button. *)
Definition sendDisabled (s : State) : bool :=
  blank (messageContent s) || isSending s.

(** [contacts.length >= 2 && <button onClick={createNewGroup}>] *)
Definition groupButtonShown (s : State) : bool :=
  bool_decide (2 ≤ length (contacts s))%nat.

(** [allMessages.length === 0]: the line [No messages yet] is shown. *)
Definition noMessagesShown (s : State) : bool :=
  bool_decide (length (allMessages s) = 0%nat).

(** *** Runs of the component *)

(** One thing that happens to the component: a handler run to its end with
    the answers of the collaborators, a change of an input, or a message of
    the stream. *)
Inductive Action : Type :=
  | ConnectWallet (w : Wallet)
  | TypeAddress (v : string)
  | TypeMessage (v : string)
  | AddContact (canMessage : Settled bool) (created : option Conversation)
      (history : option (list ConfirmedMessage))
  | OpenDM (created : option Conversation) (history : option (list ConfirmedMessage))
  | OpenGroup (created : option Conversation) (history : option (list ConfirmedMessage))
  | Send (now date : Z) (transport : Outcome) (history : option (list ConfirmedMessage))
  | Retry (messageId : string) (transport : Outcome)
      (history : option (list ConfirmedMessage))
  | Cancel (messageId : string)
  | Stream (loop : StreamLoop) (message : ConfirmedMessage).

Definition act (a : Action) (c : Component) : Component :=
  match a with
  | ConnectWallet w => connectWallet w c
  | TypeAddress v => setNewContactAddress v c
  | TypeMessage v => withCore (setMessageContent v) c
  | AddContact canMessage created history =>
      fst (addContact canMessage created history c)
  | OpenDM created history => withCore (createNewDM created history) c
  | OpenGroup created history => withCore (createNewGroup created history) c
  | Send now date transport history =>
      withCore (sendMessage now date transport history) c
  | Retry messageId transport history =>
      withCore (retryFailedMessage messageId transport history) c
  | Cancel messageId => withCore (cancelFailedMessage messageId) c
  | Stream loop message => withCore (onStreamMessage loop message) c
  end.

Definition run (actions : list Action) (c : Component) : Component :=
  foldl (λ acc a, act a acc) c actions.

(** Every contact has an address of the right form as its identity and as
    its inbox id, and no two identities are equal up to the case of the
    letters. *)
Definition contactsOk (l : list Contact) : Prop :=
  Forall (λ c, isValidEthereumAddress (identity c) = true ∧ inboxId c = identity c) l ∧
  NoDup ((λ c, toLowerCase (identity c)) <$> l).

(** A pending message has content that is not blank and an identifier made
    from a clock reading. *)
Definition pendingOk (p : OptimisticMessage) : Prop :=
  blank (om_content p) = false ∧ ∃ now, om_id p = tempIdOf now.

(** *** The variant of the component without optimistic messages *)

Module Plain.

Definition loadMessages (conversation : option Conversation)
    (history : option (list ConfirmedMessage)) (s : State) : State :=
  match conversation, history with
  | Some _, Some messages => setConversationMessages (λ _, messages) s
  | _, _ => s
  end.

(** [sendMessage]: nothing is shown before the transport answered. *)
Definition sendMessage (transport : Outcome)
    (history : option (list ConfirmedMessage)) (s : State) : State :=
  match activeConversation s with
  | None => s
  | Some conversation =>
      if blank (messageContent s) then s
      else
        match transport with
        | Resolved =>
            loadMessages (Some conversation) history (setMessageContent "" s)
        | Rejected => s
        end
  end.

End Plain.

(** A valid address, and a second one that differs in the case of a letter. *)
Definition addressA : string := "0x" +:+ String.concat "" (replicate 40 "a").
Definition addressA' : string := "0xA" +:+ String.concat "" (replicate 39 "a").

(** * Properties *)

(** ** The stable sort *)

Section SortFacts.
Context {A : Type} (cmp : A → A → Z) (key : A → Z).
Hypothesis cmp_key : ∀ a b, cmp a b = key a - key b.

Local Abbreviation ascending := (ascendingBy key).

Lemma sortInsert_Permutation x l : sortInsert cmp x l ≡ₚ x :: l.
Proof.
  induction l as [|y l IH]; simpl; [done|].
  case_decide; [done|]. rewrite IH. apply Permutation_swap.
Qed.

Lemma sort_Permutation l : sort cmp l ≡ₚ l.
Proof.
  induction l as [|x l IH]; simpl; [done|].
  by rewrite sortInsert_Permutation, IH.
Qed.

Lemma sort_elem_of x l : x ∈ sort cmp l ↔ x ∈ l.
Proof. by rewrite sort_Permutation. Qed.

Lemma sort_length l : length (sort cmp l) = length l.
Proof. by rewrite sort_Permutation. Qed.

Lemma sortInsert_sorted x l :
  StronglySorted ascending l → StronglySorted ascending (sortInsert cmp x l).
Proof.
  induction l as [|y l IH]; simpl; intros Hl.
  - repeat constructor.
  - apply StronglySorted_cons in Hl as [Hy Hl]. case_decide as Hxy.
    + rewrite cmp_key in Hxy. apply StronglySorted_cons. split.
      * constructor; [unfold ascendingBy; lia|].
        eapply Forall_impl; [exact Hy|]. unfold ascendingBy. intros z Hz. lia.
      * by apply StronglySorted_cons.
    + rewrite cmp_key in Hxy. apply StronglySorted_cons. split; [|by apply IH].
      rewrite sortInsert_Permutation. constructor; [unfold ascendingBy; lia|done].
Qed.

Lemma sort_sorted l : StronglySorted ascending (sort cmp l).
Proof.
  induction l as [|x l IH]; simpl; [constructor|by apply sortInsert_sorted].
Qed.

(** Stability: the elements of one key are in the order they had. *)
Lemma sortInsert_filter t x l :
  filter (λ a, key a = t) (sortInsert cmp x l) = filter (λ a, key a = t) (x :: l).
Proof.
  induction l as [|y l IH]; simpl; [done|].
  case_decide as Hxy; [done|]. rewrite cmp_key in Hxy.
  rewrite (filter_cons _ y), IH, !filter_cons.
  repeat case_decide; try done; lia.
Qed.

Lemma sort_filter t l :
  filter (λ a, key a = t) (sort cmp l) = filter (λ a, key a = t) l.
Proof.
  induction l as [|x l IH]; simpl; [done|].
  by rewrite sortInsert_filter, !filter_cons, IH.
Qed.

Lemma sorted_lookup_le l i j a b :
  StronglySorted ascending l →
  l !! i = Some a → l !! j = Some b → (i < j)%nat → key a ≤ key b.
Proof.
  intros Hl. revert i j. induction Hl as [|x l Hl IH Hx]; intros i j Hi Hj Hij.
  - done.
  - destruct j as [|j]; [lia|]. destruct i as [|i]; simpl in *.
    + injection Hi as ->. rewrite Forall_forall in Hx.
      apply Hx. by eapply list_elem_of_lookup_2.
    + apply (IH i j); [done..|lia].
Qed.

(** An element of a smaller key is at a smaller index. *)
Lemma sort_lookup_lt l i j a b :
  sort cmp l !! i = Some a → sort cmp l !! j = Some b →
  key a < key b → (i < j)%nat.
Proof.
  intros Hi Hj Hab. destruct (decide (i < j)%nat) as [|Hge]; [done|].
  destruct (decide (i = j)) as [->|Hne]; [rewrite Hi in Hj; simplify_eq; lia|].
  pose proof (sorted_lookup_le _ j i b a (sort_sorted l) Hj Hi). lia.
Qed.
(** The three facts above fix the result: a list in ascending order that
    has, for every key, the elements of [l] of that key in their order is
    [sort cmp l], whichever way it was computed. *)
Lemma sorted_filter_eq r r' :
  StronglySorted ascending r → StronglySorted ascending r' →
  (∀ t, filter (λ a, key a = t) r = filter (λ a, key a = t) r') → r = r'.
Proof.
  intros Hr. revert r'. induction Hr as [|x r Hr IH Hx]; intros r' Hr' Heq.
  - destruct r' as [|y r']; [done|]. specialize (Heq (key y)).
    by rewrite filter_cons_True in Heq.
  - destruct Hr' as [|y r' Hr' Hy].
    { specialize (Heq (key x)). by rewrite filter_cons_True in Heq. }
    rewrite Forall_forall in Hx, Hy. unfold ascendingBy in Hx, Hy.
    assert (key x = key y) as Hkey.
    { destruct (Z.lt_trichotomy (key x) (key y)) as [Hlt|[?|Hlt]]; [|done|].
      - pose proof (Heq (key x)) as E.
        rewrite filter_cons_True, (filter_cons_False _ y) in E by lia.
        assert (x ∈ filter (λ a, key a = key x) r') as Hin by (rewrite <-E; by left).
        apply list_elem_of_filter in Hin as [_ Hin]. apply Hy in Hin. lia.
      - pose proof (Heq (key y)) as E.
        rewrite (filter_cons_True _ y), (filter_cons_False _ x) in E by lia.
        assert (y ∈ filter (λ a, key a = key y) r) as Hin by (rewrite E; by left).
        apply list_elem_of_filter in Hin as [_ Hin]. apply Hx in Hin. lia. }
    assert (x = y) as <-.
    { specialize (Heq (key x)).
      rewrite !filter_cons_True in Heq by done. by injection Heq. }
    f_equal. apply IH; [done|]. intros t. specialize (Heq t).
    rewrite !filter_cons in Heq. case_decide; [by injection Heq|done].
Qed.

Lemma sort_unique l r :
  StronglySorted ascending r →
  (∀ t, filter (λ a, key a = t) r = filter (λ a, key a = t) l) →
  r = sort cmp l.
Proof.
  intros Hr Heq. apply sorted_filter_eq; [done|apply sort_sorted|].
  intros t. by rewrite sort_filter.
Qed.
End SortFacts.

(** Two positions of a list, in order, give a two-element sublist. *)
Lemma lookup_lt_sublist {A} (l : list A) i j a b :
  l !! i = Some a → l !! j = Some b → (i < j)%nat → [a; b] `sublist_of` l.
Proof.
  intros Hi Hj Hij.
  rewrite <-(take_drop_middle l i a Hi).
  apply sublist_inserts_l, sublist_skip.
  assert (Hb : b ∈ drop (S i) l).
  { apply list_elem_of_lookup. exists (j - S i)%nat. rewrite lookup_drop.
    by replace (S i + (j - S i))%nat with j by lia. }
  apply list_elem_of_split in Hb as (l1 & l2 & ->).
  apply sublist_inserts_l, sublist_skip, sublist_nil_l.
Qed.

Lemma filter_sublist_mono {A} (P : A → Prop) `{!∀ x, Decision (P x)} (l k : list A) :
  l `sublist_of` k → filter P l `sublist_of` filter P k.
Proof.
  induction 1 as [|x l k Hlk IH|x l k Hlk IH]; [constructor|..];
    rewrite ?filter_cons; case_decide; auto using sublist_skip, sublist_cons.
Qed.

(** Stability, on pairs: two elements of one key that follow one another
    after the sort followed one another before it. *)
Lemma sort_stable_pair {A} (cmp : A → A → Z) (key : A → Z) (l : list A) a b :
  (∀ a b, cmp a b = key a - key b) →
  key a = key b → [a; b] `sublist_of` sort cmp l → [a; b] `sublist_of` l.
Proof.
  intros Hcmp Hab Hsub.
  apply (filter_sublist_mono (λ x, key x = key b)) in Hsub.
  rewrite (sort_filter cmp key Hcmp) in Hsub.
  rewrite !filter_cons_True in Hsub by done.
  etrans; [exact Hsub|apply sublist_filter].
Qed.

(** The sort reads the comparator on the elements of the list only. *)
Lemma sortInsert_ext {A} (cmp1 cmp2 : A → A → Z) x (l : list A) :
  (∀ y, y ∈ l → cmp1 x y = cmp2 x y) →
  sortInsert cmp1 x l = sortInsert cmp2 x l.
Proof.
  induction l as [|y l IH]; intros Heq; simpl; [done|].
  rewrite (Heq y) by by left. case_decide; [done|].
  f_equal. apply IH. intros z Hz. apply Heq. by right.
Qed.

Lemma sort_ext {A} (cmp1 cmp2 : A → A → Z) (l : list A) :
  (∀ x y, x ∈ l → y ∈ l → cmp1 x y = cmp2 x y) →
  sort cmp1 l = sort cmp2 l.
Proof.
  induction l as [|x l IH]; intros Heq; simpl; [done|].
  rewrite IH by (intros y z Hy Hz; apply Heq; by right).
  apply sortInsert_ext. intros y Hy%sort_elem_of.
  apply Heq; [by left|by right].
Qed.

(** A list in which no element compares above a later one is left as it
    is, whatever else the comparator says. *)
Lemma sort_of_sorted {A} (cmp : A → A → Z) (l : list A) :
  StronglySorted (λ a b, cmp a b ≤ 0) l → sort cmp l = l.
Proof.
  induction 1 as [|x l Hl IH Hx]; simpl; [done|]. rewrite IH.
  destruct l as [|y l]; simpl; [done|].
  apply Forall_cons in Hx as [Hxy _]. by rewrite decide_True.
Qed.

Lemma filter_ext_elem_of {A} (P Q : A → Prop) `{!∀ x, Decision (P x)}
    `{!∀ x, Decision (Q x)} (l : list A) :
  (∀ x, x ∈ l → P x ↔ Q x) → filter P l = filter Q l.
Proof.
  induction l as [|x l IH]; intros Heq; [done|].
  rewrite !filter_cons, IH by (intros y Hy; apply Heq; by right).
  destruct (decide (P x)) as [HP|HP], (decide (Q x)) as [HQ|HQ]; try done;
    exfalso; apply (Heq x) in HP || apply (Heq x) in HQ; try done; by left.
Qed.

(** ** The merged list *)

(** On entries that have time values the comparator is their difference. *)
Lemma sortCompare_bySent a b :
  is_Some (dm_sent a) → is_Some (dm_sent b) →
  sortCompare bySent a b = sentKey a - sentKey b.
Proof.
  intros [ta Ha] [tb Hb]. unfold sortCompare, bySent, sentKey.
  by rewrite Ha, Hb.
Qed.

Lemma sentKey_Some m t : dm_sent m = Some t → sentKey m = t.
Proof. unfold sentKey. by intros ->. Qed.

Lemma allMessages_Permutation s : allMessages s ≡ₚ combined s.
Proof. apply (sort_Permutation (sortCompare bySent)). Qed.

Lemma allMessages_elem_of s m : m ∈ allMessages s ↔ m ∈ combined s.
Proof. by rewrite allMessages_Permutation. Qed.


Lemma elem_of_combined s m :
  m ∈ combined s ↔
    (∃ c, m = ofConfirmed c ∧ c ∈ conversationMessages s) ∨
    (∃ p, m = ofOptimistic p ∧ p ∈ optimisticMessages s).
Proof. unfold combined. by rewrite elem_of_app, !list_elem_of_fmap. Qed.

Lemma combined_valid s m :
  validSent s → m ∈ combined s → is_Some (dm_sent m).
Proof.
  intros Hvalid [(c & -> & Hc)|(p & -> & _)]%elem_of_combined; simpl; [|done].
  by apply Hvalid.
Qed.

(** With valid dates the merged list is the sort by the time value. *)
Lemma allMessages_valid s :
  validSent s →
  allMessages s = sort (λ a b, sentKey a - sentKey b) (combined s).
Proof.
  intros Hvalid. apply sort_ext. intros a b Ha Hb.
  apply sortCompare_bySent; by eapply combined_valid.
Qed.

Lemma allMessages_sorted s :
  validSent s → StronglySorted (ascendingBy sentKey) (allMessages s).
Proof.
  intros Hvalid. rewrite allMessages_valid by done.
  by apply (sort_sorted _ sentKey).
Qed.

Lemma ofConfirmed_elem_of s c :
  c ∈ conversationMessages s → ofConfirmed c ∈ allMessages s.
Proof. rewrite allMessages_elem_of, elem_of_combined. eauto. Qed.

Lemma ofOptimistic_elem_of s p :
  p ∈ optimisticMessages s → ofOptimistic p ∈ allMessages s.
Proof. rewrite allMessages_elem_of, elem_of_combined. eauto. Qed.

Lemma ofOptimistic_inj : Inj (=) (=) ofOptimistic.
Proof. intros [] [] [=]. by simplify_eq. Qed.

(** An optimistic message is shown exactly while it is in
    [optimisticMessages]. *)
Lemma ofOptimistic_shown s p :
  ofOptimistic p ∈ allMessages s ↔ p ∈ optimisticMessages s.
Proof.
  split; [|apply ofOptimistic_elem_of].
  rewrite allMessages_elem_of, elem_of_combined.
  intros [(c & Hc & _)|(q & Hq & ?)]; [discriminate Hc|].
  by apply ofOptimistic_inj in Hq as ->.
Qed.

Lemma filter_fmap_comm {A B} (f : A → B) (P : B → Prop) `{!∀ y, Decision (P y)}
    (l : list A) :
  filter P (f <$> l) = f <$> filter (λ x, P (f x)) l.
Proof.
  induction l as [|x l IH]; [done|].
  rewrite fmap_cons, !filter_cons, IH. by case_decide.
Qed.

(** Deciding membership in a list that is given in full. *)
Ltac in_list := apply (bool_decide_unpack _); vm_compute; exact I.

(** ** History refresh *)

Lemma loadMessages_optimistic conversation messages s :
  optimisticMessages (loadMessages (Some conversation) (Some messages) s) =
  filter (λ msg, om_status msg ≠ Published) (optimisticMessages s).
Proof. reflexivity. Qed.

Lemma loadMessages_conversation conversation messages s :
  conversationMessages (loadMessages (Some conversation) (Some messages) s) = messages.
Proof. reflexivity. Qed.

Lemma loadMessages_keeps conversation history s p :
  p ∈ optimisticMessages s → om_status p ≠ Published →
  p ∈ optimisticMessages (loadMessages conversation history s).
Proof.
  intros Hp Hst. destruct conversation, history; simpl; try done.
  apply list_elem_of_filter. by split.
Qed.

(** C10. After a history refresh that succeeded, no message of the pending
    set has status Published: the refresh keeps exactly the pending messages
    whose status is not Published, in their order, and what it keeps does
    not depend on the history that was fetched; the merged list then has no
    entry of status Published. *)
Theorem refresh_removes_published (conversation : Conversation)
    (messages : list ConfirmedMessage) (s : State) :
  let s' := loadMessages (Some conversation) (Some messages) s in
  (∀ p, p ∈ optimisticMessages s' → om_status p ≠ Published) ∧
  (∀ p, p ∈ optimisticMessages s → om_status p = Published →
        p ∉ optimisticMessages s') ∧
  (∀ m, m ∈ allMessages s' → dm_status m ≠ Some Published) ∧
  (∀ other, optimisticMessages s' =
            optimisticMessages (loadMessages (Some conversation) (Some other) s)).
Proof.
  intros s'. subst s'. repeat split.
  - intros p Hp. rewrite loadMessages_optimistic in Hp.
    by apply list_elem_of_filter in Hp as [? _].
  - intros p _ Hst Hp. rewrite loadMessages_optimistic in Hp.
    by apply list_elem_of_filter in Hp as [? _].
  - intros m Hm. apply allMessages_elem_of, elem_of_combined in Hm.
    destruct Hm as [(c & -> & _)|(p & -> & Hp)]; [done|].
    rewrite loadMessages_optimistic in Hp.
    apply list_elem_of_filter in Hp as [Hst _]. simpl. congruence.
Qed.

Lemma refresh_removes_published_witness :
  mkOptimistic "optimistic-5" "hi" "0xA" Published 5
    ∉ optimisticMessages
        (loadMessages (Some (Conv 1)) (Some [hiFromNetwork]) publishedAndStreamed).
Proof.
  apply (refresh_removes_published (Conv 1) [hiFromNetwork] publishedAndStreamed);
    [in_list|reflexivity].
Defined.

(** ** C1: what the merged list leaves out *)

(** C1 (as stated, refuted). The pending [hi] of status Published is matched
    by the confirmed [hi] that the stream delivered, and the merged list
    has both. *)
Lemma matched_pending_still_shown : ¬ excludesMatched publishedAndStreamed.
Proof.
  intros H.
  destruct (H (mkOptimistic "optimistic-5" "hi" "0xA" Published 5) hiFromNetwork)
    as [Hout _].
  - in_list.
  - in_list.
  - split_and!; [done..|]. exists 7. split; [done|by vm_compute].
  - apply Hout. in_list.
Qed.

(** The merged list of that state: two entries for [hi] of [0xA]. *)
Example both_entries_shown :
  entriesFor "hi" "0xA" (allMessages publishedAndStreamed) =
  [ofOptimistic (mkOptimistic "optimistic-5" "hi" "0xA" Published 5);
   ofConfirmed hiFromNetwork].
Proof. reflexivity. Qed.

(** C1 (amended). The merged list leaves out no pending message: every
    message of the pending set is shown, matched by a confirmed one or not.
    A pending message leaves the list by leaving the pending set: after a
    history refresh that succeeded, the pending messages of status Published
    are no longer shown, the others still are, and every fetched message is
    shown. *)
Theorem pending_shown_until_refreshed (s : State) (p : OptimisticMessage) :
  p ∈ optimisticMessages s →
  ofOptimistic p ∈ allMessages s ∧
  ∀ conversation messages,
    let s' := loadMessages (Some conversation) (Some messages) s in
    (om_status p = Published → ofOptimistic p ∉ allMessages s') ∧
    (om_status p ≠ Published → ofOptimistic p ∈ allMessages s') ∧
    (∀ c, c ∈ messages → ofConfirmed c ∈ allMessages s').
Proof.
  intros Hp. split; [by apply ofOptimistic_elem_of|].
  intros conversation messages s'. subst s'. repeat split.
  - intros Hst. rewrite ofOptimistic_shown, loadMessages_optimistic.
    rewrite list_elem_of_filter. tauto.
  - intros Hst. apply ofOptimistic_elem_of. by apply loadMessages_keeps.
  - intros c Hc. by apply ofConfirmed_elem_of.
Qed.

Lemma pending_shown_until_refreshed_witness :
  ofOptimistic (mkOptimistic "optimistic-5" "hi" "0xA" Published 5)
    ∈ allMessages publishedAndStreamed.
Proof.
  apply (pending_shown_until_refreshed publishedAndStreamed). in_list.
Defined.

(** ** C2: the order of the merged list *)

(** C2 (as stated, refuted). Two confirmed messages of one timestamp stay in
    the order of the history, [b] before [a]. *)
Lemma identifier_order_not_used : ¬ tiesByIdentifier tiedState.
Proof.
  intros H.
  pose proof (H 1%nat 0%nat (ofConfirmed (mkConfirmed "a" "second" "0xB" (Some 3)))
                (ofConfirmed (mkConfirmed "b" "first" "0xB" (Some 3)))
                eq_refl eq_refl eq_refl eq_refl eq_refl).
  lia.
Qed.

(** A [sent] that is no date compares as equal with every other: the
    message of such a [sent] and the one after it stay in the order of the
    history. *)
Example undated_keeps_place :
  dm_id <$> allMessages undatedState = ["far"; "near"].
Proof. reflexivity. Qed.

(** C2 (amended). When every confirmed message has a [sent] that is a valid
    date, the merged list is in ascending order of the timestamp: a message
    of a smaller timestamp is at a smaller index. Among messages of one
    timestamp a confirmed one is before a pending one, and the list has,
    for each timestamp, the confirmed messages of that timestamp in the
    order of [conversationMessages], then the pending ones in the order of
    [optimisticMessages]: the identifier plays no part. *)
Theorem allMessages_order (s : State) :
  validSent s →
  (∀ i j a b ta tb,
     allMessages s !! i = Some a → allMessages s !! j = Some b →
     dm_sent a = Some ta → dm_sent b = Some tb → ta < tb → (i < j)%nat) ∧
  (∀ i j a b, allMessages s !! i = Some a → allMessages s !! j = Some b →
     dm_sent a = dm_sent b → dm_status a = None → is_Some (dm_status b) →
     (i < j)%nat) ∧
  (∀ t, filter (λ m, dm_sent m = Some t) (allMessages s) =
     (ofConfirmed <$> filter (λ c, cm_sent c = Some t) (conversationMessages s)) ++
     (ofOptimistic <$> filter (λ p, om_sentAt p = t) (optimisticMessages s))).
Proof.
  intros Hvalid.
  assert (∀ a b, sentKey a - sentKey b = sentKey a - sentKey b) as Hkey by done.
  assert (∀ m t, m ∈ combined s → dm_sent m = Some t ↔ sentKey m = t) as Hsent.
  { intros m t Hm. destruct (combined_valid s m Hvalid Hm) as [t' Ht'].
    rewrite (sentKey_Some m t' Ht'), Ht'. split; [by intros [= ->]|by intros ->]. }
  rewrite (allMessages_valid s Hvalid). split_and!.
  - intros i j a b ta tb Hi Hj Ha Hb Hlt.
    apply (sort_lookup_lt _ sentKey Hkey (combined s) i j a b Hi Hj).
    by rewrite (sentKey_Some a ta), (sentKey_Some b tb).
  - intros i j a b Hi Hj Hsame Ha [st Hb].
    destruct (decide (i < j)%nat) as [|Hge]; [done|exfalso].
    assert (j < i)%nat as Hji.
    { destruct (decide (i = j)) as [->|]; [|lia].
      rewrite Hi in Hj. injection Hj as ->. congruence. }
    pose proof (lookup_lt_sublist _ _ _ _ _ Hj Hi Hji) as Hsub.
    apply (sort_stable_pair _ sentKey) in Hsub;
      [|exact Hkey|unfold sentKey; by rewrite Hsame].
    apply sublist_app_r in Hsub as (l1 & l2 & Hl & H1 & H2).
    destruct l1 as [|x l1]; simpl in Hl.
    + subst l2. assert (a ∈ ofOptimistic <$> optimisticMessages s) as Hin.
      { eapply elem_of_sublist; [|exact H2]. by right; left. }
      apply list_elem_of_fmap in Hin as (p & -> & _). discriminate Ha.
    + injection Hl as <- _.
      assert (b ∈ ofConfirmed <$> conversationMessages s) as Hin.
      { eapply elem_of_sublist; [|exact H1]. by left. }
      apply list_elem_of_fmap in Hin as (c & -> & _). discriminate Hb.
  - intros t.
    rewrite (filter_ext_elem_of (λ m, dm_sent m = Some t) (λ m, sentKey m = t)).
    2:{ intros m Hm. apply Hsent. by apply sort_elem_of in Hm. }
    rewrite (sort_filter _ sentKey Hkey).
    rewrite <-(filter_ext_elem_of (λ m, dm_sent m = Some t) (λ m, sentKey m = t)).
    2:{ intros m Hm. by apply Hsent. }
    unfold combined. rewrite filter_app, !filter_fmap_comm. do 2 f_equal.
    apply list_filter_iff. intros p. simpl. split; [by intros [= ->]|by intros ->].
Qed.

Lemma allMessages_order_witness : (0 < 1)%nat.
Proof.
  apply (proj1 (allMessages_order publishedAndStreamed
                  ltac:(intros c Hc; vm_compute in Hc;
                        apply list_elem_of_singleton in Hc as ->; by eexists))
           0%nat 1%nat
           (ofOptimistic (mkOptimistic "optimistic-5" "hi" "0xA" Published 5))
           (ofConfirmed hiFromNetwork) 5 7);
    [reflexivity|reflexivity|reflexivity|reflexivity|lia].
Defined.

(** ** Status updates of the pending set *)

Lemma markStatus_length messageId st l :
  length (markStatus messageId st l) = length l.
Proof. apply length_fmap. Qed.

Lemma markStatus_ids messageId st l :
  om_id <$> markStatus messageId st l = om_id <$> l.
Proof.
  unfold markStatus. rewrite <-list_fmap_compose. apply list_fmap_ext.
  intros _ p _. simpl. by case_decide.
Qed.

Lemma markStatus_app messageId st l k :
  markStatus messageId st (l ++ k) =
  markStatus messageId st l ++ markStatus messageId st k.
Proof. apply fmap_app. Qed.

Lemma markStatus_twice messageId st1 st2 l :
  markStatus messageId st2 (markStatus messageId st1 l) = markStatus messageId st2 l.
Proof.
  unfold markStatus. rewrite <-list_fmap_compose. apply list_fmap_ext.
  intros _ p _. simpl. repeat (case_decide; simpl in *); done.
Qed.

Lemma markStatus_hit messageId st l p :
  p ∈ l → om_id p = messageId → withStatus st p ∈ markStatus messageId st l.
Proof.
  intros Hp Hid. apply list_elem_of_fmap. exists p. split; [|done].
  by rewrite decide_True.
Qed.

Lemma markStatus_miss messageId st l p :
  p ∈ l → om_id p ≠ messageId → p ∈ markStatus messageId st l.
Proof.
  intros Hp Hid. apply list_elem_of_fmap. exists p. split; [|done].
  by rewrite decide_False.
Qed.

Lemma markStatus_status messageId st l q :
  q ∈ markStatus messageId st l → om_id q = messageId → om_status q = st.
Proof.
  intros (p & -> & _)%list_elem_of_fmap. by case_decide.
Qed.

(** ** Background steps keep what is not Published *)

Lemma onStreamMessage_optimistic loop message s :
  optimisticMessages (onStreamMessage loop message s) = optimisticMessages s.
Proof. unfold onStreamMessage. by case_match. Qed.



(** With a client and two contacts, [createNewGroup] does what
    [createNewDM] does with the conversation it was given. *)
Lemma createNewGroup_as_createNewDM created history s :
  (2 ≤ length (contacts s))%nat →
  createNewGroup created history s = createNewDM created history s.
Proof.
  intros Hlen. unfold createNewGroup, createNewDM.
  rewrite bool_decide_eq_true_2 by done. by destruct (client s).
Qed.



(** ** C3: opening another conversation *)

(** C3 (as stated, refuted). The message whose send failed is still in the
    pending set and in the merged list after another conversation, of empty
    history, was opened. *)
Lemma failed_pending_survives_switch : ¬ discardsPending failedHi (Conv 2) (Some []).
Proof.
  intros H.
  destruct (H (mkOptimistic "optimistic-5" "hi" "0xA" Failed 5)) as [Hout _].
  - in_list.
  - apply Hout. in_list.
Qed.

(** C3 (amended). Opening a conversation (with a client, and the
    conversation created) makes it the active one and refreshes the history.
    When the fetch succeeds, the confirmed sequence becomes the fetched
    history and the pending set loses its Published messages only; when the
    fetch fails, both stay as they were. In both cases every pending message
    that is Unpublished or Failed stays in the pending set and in the merged
    list. *)
Theorem switch_keeps_unpublished_and_failed (s : State)
    (conversation : Conversation) (history : option (list ConfirmedMessage)) :
  client s = true →
  let s' := createNewDM (Some conversation) history s in
  activeConversation s' = Some conversation ∧
  conversationMessages s' = default (conversationMessages s) history ∧
  optimisticMessages s' =
    match history with
    | Some _ => filter (λ msg, om_status msg ≠ Published) (optimisticMessages s)
    | None => optimisticMessages s
    end ∧
  ∀ p, p ∈ optimisticMessages s → om_status p ≠ Published →
    p ∈ optimisticMessages s' ∧ ofOptimistic p ∈ allMessages s'.
Proof.
  intros Hclient s'. subst s'. unfold createNewDM. rewrite Hclient.
  split_and!; try by destruct history.
  intros p Hp Hst.
  assert (p ∈ optimisticMessages
            (loadMessages (Some conversation) history
               (setActiveConversation (Some conversation) s))) as Hkept
    by by apply loadMessages_keeps.
  split; [done|by apply ofOptimistic_elem_of].
Qed.

Lemma switch_keeps_unpublished_and_failed_witness :
  mkOptimistic "optimistic-5" "hi" "0xA" Failed 5
    ∈ optimisticMessages (createNewDM (Some (Conv 2)) (Some []) failedHi).
Proof.
  apply (switch_keeps_unpublished_and_failed failedHi (Conv 2) (Some []));
    [reflexivity|in_list|discriminate].
Defined.

(** ** C4: a send whose transport call fails *)

Lemma sendMessage_begin_Some now date s call s1 :
  sendMessage_begin now date s = Some (call, s1) ↔
    ∃ conversation,
      activeConversation s = Some conversation ∧
      blank (messageContent s) = false ∧ isSending s = false ∧
      call = mkSendCall (tempIdOf now) (messageContent s) conversation ∧
      s1 = setMessageContent ""
             (setOptimisticMessages
                (λ prev, prev ++ [mkOptimistic (tempIdOf now) (messageContent s)
                                    (default "" (accountIdentifier s))
                                    Unpublished date])
                (setIsSending true s)).
Proof.
  unfold sendMessage_begin. split.
  - destruct (activeConversation s) as [conversation|]; [|done].
    destruct (blank _), (isSending s); try done.
    intros [= <- <-]. by exists conversation.
  - intros (conversation & -> & -> & -> & -> & ->). done.
Qed.



(** ** C5: cancel *)

(** C5 (as stated, refuted). The pending message of a send that is still
    in flight is Unpublished, and [cancelFailedMessage] removes it. *)
Lemma cancel_removes_unpublished : ¬ cancelOnlyFailed sendingHi "optimistic-5".
Proof.
  intros H.
  assert (mkOptimistic "optimistic-5" "hi" "0xA" Unpublished 5
            ∈ optimisticMessages (cancelFailedMessage "optimistic-5" sendingHi))
    as Hin by (apply H; [in_list|done..]).
  vm_compute in Hin. by apply elem_of_nil in Hin.
Qed.

(** C5 (amended). [cancelFailedMessage] never fails and looks at no status:
    it removes from the pending set, and so from the merged list, every
    pending message that has the identifier, Failed or not; it keeps the
    other pending messages and the confirmed sequence. The guard is in the
    rendering: the Cancel button is there exactly for an entry whose status
    is failed. *)
Theorem cancel_removes_whatever_status (messageId : string) (s : State) :
  let s' := cancelFailedMessage messageId s in
  optimisticMessages s' = filter (λ msg, om_id msg ≠ messageId) (optimisticMessages s) ∧
  conversationMessages s' = conversationMessages s ∧
  (∀ p, om_id p = messageId →
     (p ∉ optimisticMessages s') ∧ (ofOptimistic p ∉ allMessages s')) ∧
  (∀ p, p ∈ optimisticMessages s → om_id p ≠ messageId →
     p ∈ optimisticMessages s' ∧ ofOptimistic p ∈ allMessages s') ∧
  (∀ m, buttonsOffered m = true ↔ dm_status m = Some Failed).
Proof.
  intros s'. subst s'. split_and!; try done.
  - intros p Hid.
    assert (p ∉ optimisticMessages (cancelFailedMessage messageId s)) as Hout.
    { simpl. rewrite list_elem_of_filter. tauto. }
    split; [done|]. by rewrite ofOptimistic_shown.
  - intros p Hp Hid.
    assert (p ∈ optimisticMessages (cancelFailedMessage messageId s)) as Hin.
    { simpl. by apply list_elem_of_filter. }
    split; [done|]. by apply ofOptimistic_elem_of.
  - intros m. unfold buttonsOffered. apply bool_decide_eq_true.
Qed.

Lemma cancel_removes_whatever_status_witness :
  ofOptimistic (mkOptimistic "optimistic-5" "hi" "0xA" Failed 5)
    ∉ allMessages (cancelFailedMessage "optimistic-5" failedHi).
Proof.
  apply (cancel_removes_whatever_status "optimistic-5" failedHi). reflexivity.
Defined.

(** ** C6: retry *)

Lemma find_id_elem_of messageId (l : list OptimisticMessage) p :
  p ∈ l → om_id p = messageId →
  ∃ found, find (λ msg, bool_decide (om_id msg = messageId)) l = Some found ∧
           found ∈ l ∧ om_id found = messageId.
Proof.
  induction 1 as [p l|p q l Hp IH]; intros Hid; simpl.
  - rewrite bool_decide_eq_true_2 by done. exists p. split_and!; [done| |done].
    by left.
  - case_bool_decide as Hq.
    + exists q. split_and!; [done| |done]. by left.
    + destruct (IH Hid) as (found & ? & ? & ?). exists found.
      split_and!; [done| |done]. by right.
Qed.

Lemma find_id_None messageId (l : list OptimisticMessage) :
  find (λ msg, bool_decide (om_id msg = messageId)) l = None ↔
  ∀ p, p ∈ l → om_id p ≠ messageId.
Proof.
  split.
  - intros Hnone p Hp Hid.
    destruct (find_id_elem_of messageId l p Hp Hid) as (? & Hsome & _). congruence.
  - intros Hall. destruct (find _ l) as [found|] eqn:E; [|done].
    apply find_some in E as [Hin Hid%bool_decide_eq_true].
    apply list_elem_of_In in Hin. by destruct (Hall found Hin).
Qed.

(** C6 (as stated, refuted). While the send of [hi] is in flight its pending
    message is Unpublished, no Failed message has its identifier, and
    [retryFailedMessage] goes on to the transport all the same. *)
Lemma retry_accepts_unpublished : ¬ retryOnlyFailed sendingHi "optimistic-5".
Proof.
  intros H.
  assert (retryFailedMessage_begin "optimistic-5" sendingHi = None) as Hnone.
  { apply H. intros (p & Hp & _ & Hst). vm_compute in Hp.
    apply list_elem_of_singleton in Hp as ->. discriminate Hst. }
  vm_compute in Hnone. discriminate Hnone.
Qed.

(** C6 (amended). [retryFailedMessage] returns without effect exactly when
    no pending message has the identifier, whatever the status, or no
    conversation is active. Otherwise it sets the pending messages of that
    identifier to Unpublished and sends again the content of the one that
    [find] gives; when the transport fails they are Failed again, when it succeeds
    they are Published and the history is refreshed, as in send. A retry adds
    no entry: the pending set keeps its length and its identifiers, and
    after a failing retry the message is there, Failed, with its content. *)
Theorem retry_reuses_entry (messageId : string) (s : State) :
  (retryFailedMessage_begin messageId s = None ↔
     (∀ p, p ∈ optimisticMessages s → om_id p ≠ messageId) ∨
     activeConversation s = None) ∧
  ∀ p conversation,
    p ∈ optimisticMessages s → om_id p = messageId →
    activeConversation s = Some conversation →
    ∃ call s1,
      retryFailedMessage_begin messageId s = Some (call, s1) ∧
      (failedMessage call ∈ optimisticMessages s ∧
       om_id (failedMessage call) = messageId) ∧
      optimisticMessages s1 = markStatus messageId Unpublished (optimisticMessages s) ∧
      (let failed := retryFailedMessage_failed call s1 in
       optimisticMessages failed = markStatus messageId Failed (optimisticMessages s) ∧
       withStatus Failed p ∈ optimisticMessages failed ∧
       ofOptimistic (withStatus Failed p) ∈ allMessages failed ∧
       length (optimisticMessages failed) = length (optimisticMessages s) ∧
       om_id <$> optimisticMessages failed = om_id <$> optimisticMessages s) ∧
      (∀ history,
         optimisticMessages (retryFailedMessage_sent call history s1) =
         optimisticMessages
           (loadMessages (Some conversation) history
              (setOptimisticMessages (markStatus messageId Published) s))).
Proof.
  split.
  - unfold retryFailedMessage_begin. rewrite <-find_id_None.
    destruct (find _ _) as [found|], (activeConversation s) as [conversation|];
      split; try done; try (by intros [|]); auto.
  - intros p conversation Hp Hid Hconv.
    destruct (find_id_elem_of messageId _ p Hp Hid) as (found & Hfind & Hin & Hfid).
    exists (mkRetryCall messageId found conversation),
           (setOptimisticMessages (markStatus messageId Unpublished) s).
    assert (optimisticMessages
              (retryFailedMessage_failed (mkRetryCall messageId found conversation)
                 (setOptimisticMessages (markStatus messageId Unpublished) s)) =
            markStatus messageId Failed (optimisticMessages s)) as Hfailed
      by apply markStatus_twice.
    cbv zeta. split_and!.
    + unfold retryFailedMessage_begin. by rewrite Hfind, Hconv.
    + done.
    + done.
    + done.
    + done.
    + rewrite Hfailed. by apply markStatus_hit.
    + apply ofOptimistic_elem_of. rewrite Hfailed. by apply markStatus_hit.
    + rewrite Hfailed. apply markStatus_length.
    + rewrite Hfailed. apply markStatus_ids.
    + intros history. unfold retryFailedMessage_sent. simpl.
      by destruct history; simpl; rewrite markStatus_twice.
Qed.

Lemma retry_reuses_entry_witness :
  ∃ call s1,
    retryFailedMessage_begin "optimistic-5" failedHi = Some (call, s1) ∧
    optimisticMessages (retryFailedMessage_failed call s1) =
      [mkOptimistic "optimistic-5" "hi" "0xA" Failed 5].
Proof.
  destruct (proj2 (retry_reuses_entry "optimistic-5" failedHi)
              (mkOptimistic "optimistic-5" "hi" "0xA" Failed 5) (Conv 1))
    as (call & s1 & Hbegin & _ & _ & (Hfailed & _) & _);
    [in_list|reflexivity|reflexivity|].
  exists call, s1. split; [exact Hbegin|]. rewrite Hfailed. reflexivity.
Defined.

(** ** C7: the temporary identifier *)

Lemma tempIdOf_inj : Inj (=) (=) tempIdOf.
Proof.
  intros now1 now2 Heq. unfold tempIdOf in Heq.
  apply (inj (String.app "optimistic-")) in Heq. by apply (inj pretty) in Heq.
Qed.

(** C7 (as stated, refuted). [hi] is sent at clock reading 5 and fails;
    [yo] is typed and sent while the clock still reads 5: both sends are
    accepted and both get [optimistic-5]. *)
Lemma same_reading_same_id :
  ¬ freshIds 5 5 5 5 typedHi (setMessageContent "yo" failedHi).
Proof.
  intros H.
  eapply H; [vm_compute; reflexivity|vm_compute; reflexivity|reflexivity].
Qed.

(** C7 (amended). An accepted send gets the identifier made of
    [optimistic-] and the clock reading in milliseconds. Two accepted sends
    get different identifiers exactly when their clock readings differ:
    nothing records the identifiers in use. While a send is in flight
    [isSending] is set, and a further send is not accepted and gets no
    identifier. *)
Theorem tempId_distinct_iff_reading_differs (now1 date1 now2 date2 : Z)
    (s1 s2 s1' s2' : State) (call1 call2 : SendCall) :
  sendMessage_begin now1 date1 s1 = Some (call1, s1') →
  sendMessage_begin now2 date2 s2 = Some (call2, s2') →
  tempId call1 = tempIdOf now1 ∧
  (tempId call1 ≠ tempId call2 ↔ now1 ≠ now2) ∧
  (∀ now date, sendMessage_begin now date s1' = None).
Proof.
  intros (c1 & Hc1 & _ & _ & -> & ->)%sendMessage_begin_Some
         (c2 & _ & _ & _ & -> & _)%sendMessage_begin_Some.
  split_and!; [done| |].
  - simpl. split; [congruence|]. intros Hne Heq. by apply tempIdOf_inj in Heq.
  - intros now date. unfold sendMessage_begin. cbn [activeConversation
      setMessageContent setOptimisticMessages setIsSending isSending].
    rewrite Hc1. by rewrite orb_true_r.
Qed.

Lemma tempId_distinct_iff_reading_differs_witness :
  tempIdOf 5 ≠ tempIdOf 9.
Proof.
  apply (tempId_distinct_iff_reading_differs 5 5 9 9
           typedHi (setMessageContent "yo" failedHi)
           sendingHi
           (from_option snd typedHi
              (sendMessage_begin 9 9 (setMessageContent "yo" failedHi)))
           (mkSendCall (tempIdOf 5) "hi" (Conv 1))
           (mkSendCall (tempIdOf 9) "yo" (Conv 1)));
    [reflexivity|reflexivity|lia].
Defined.

(** ** C8: the guard of send *)

Lemma trimStart_empty s : trimStart s = "" ↔ allWhiteSpace s = true.
Proof.
  induction s as [|c r IH]; simpl; [done|].
  destruct (isWhiteSpace c); simpl; [done|]. split; discriminate.
Qed.

Lemma trimEnd_empty s : trimEnd s = "" ↔ allWhiteSpace s = true.
Proof.
  induction s as [|c r IH]; simpl; [done|].
  destruct (trimEnd r) as [|c' r'].
  - assert (allWhiteSpace r = true) as -> by by apply IH.
    destruct (isWhiteSpace c); simpl; [done|]. split; discriminate.
  - assert (allWhiteSpace r ≠ true) as Hr by (intros Hr; by apply IH in Hr).
    apply not_true_is_false in Hr as ->. rewrite andb_false_r.
    split; discriminate.
Qed.

Lemma trimStart_idemp s : trimStart (trimStart s) = trimStart s.
Proof.
  induction s as [|c r IH]; simpl; [done|].
  destruct (isWhiteSpace c) eqn:E; [done|]. simpl. by rewrite E.
Qed.

(** Blank: nothing but white space. *)
Lemma blank_spec s : blank s = true ↔ allWhiteSpace s = true.
Proof.
  unfold blank, trim. rewrite bool_decide_eq_true, trimEnd_empty.
  by rewrite <-!trimStart_empty, trimStart_idemp.
Qed.

(** C8. When the content is blank (empty or white space only) or a send is
    in flight, [sendMessage] returns at its guard: no pending message is
    added, the transport is not called, and the whole run leaves the state
    as it was. *)
Theorem send_guard_rejects (now date : Z) (s : State) :
  allWhiteSpace (messageContent s) = true ∨ isSending s = true →
  sendMessage_begin now date s = None ∧
  ∀ transport history,
    sendMessage now date transport history s = s ∧
    optimisticMessages (sendMessage now date transport history s) =
      optimisticMessages s.
Proof.
  intros Hguard.
  assert (sendMessage_begin now date s = None) as Hnone.
  { unfold sendMessage_begin. destruct (activeConversation s); [|done].
    destruct Hguard as [Hblank%blank_spec| ->].
    - by rewrite Hblank.
    - by rewrite orb_true_r. }
  split; [done|]. intros transport history. unfold sendMessage. by rewrite Hnone.
Qed.

Lemma send_guard_rejects_witness :
  sendMessage_begin 9 9 sendingHi = None.
Proof.
  apply (send_guard_rejects 9 9 sendingHi). right. reflexivity.
Defined.

(** ** C9: the stream loop *)

Lemma someId_true {M} (idOf : M → string) messageId (l : list M) :
  someId idOf messageId l = true ↔ ∃ m, m ∈ l ∧ idOf m = messageId.
Proof.
  unfold someId. rewrite existsb_exists. split.
  - intros (m & Hin%list_elem_of_In & Hid%bool_decide_eq_true). eauto.
  - intros (m & Hin%list_elem_of_In & Hid). exists m.
    by rewrite bool_decide_eq_true.
Qed.

(** A message whose identifier the loop saw when it started is skipped. *)
Lemma onStreamMessage_seen loop message s m :
  m ∈ seenConversationMessages loop → cm_id m = cm_id message →
  onStreamMessage loop message s = s.
Proof.
  intros Hin Hid. unfold onStreamMessage.
  assert (someId cm_id (cm_id message) (seenConversationMessages loop) = true)
    as -> by (apply someId_true; eauto).
  done.
Qed.

(** A message whose identifier the loop did not see when it started is
    appended, whatever [conversationMessages] holds by now. *)
Lemma onStreamMessage_unseen loop message s :
  someId cm_id (cm_id message) (seenConversationMessages loop) = false →
  someId om_id (cm_id message) (seenOptimisticMessages loop) = false →
  conversationMessages (onStreamMessage loop message s) =
  conversationMessages s ++ [message].
Proof. intros H1 H2. unfold onStreamMessage. by rewrite H1, H2. Qed.

(** C9 (the code at the failing input). With nothing loaded, the effect
    starts a loop; the stream delivers [m1], which is appended; the state
    changed, so the effect starts a second loop, and the first keeps
    running. The network delivers [m1] again, to both loops: the second
    skips it, the first, which still reads the empty list it started with,
    appends it. The confirmed sequence and the merged list hold [m1] twice.
    The same happens when one loop gets the identifier twice. *)
Theorem stream_appends_same_id_twice :
  ∃ loop0 loop1,
    streamEffect emptyConversation = Some loop0 ∧
    streamEffect (deliver [loop0] hiFromNetwork emptyConversation) = Some loop1 ∧
    onStreamMessage loop1 hiFromNetwork
      (deliver [loop0] hiFromNetwork emptyConversation) =
      deliver [loop0] hiFromNetwork emptyConversation ∧
    conversationMessages
      (deliver [loop0; loop1] hiFromNetwork
         (deliver [loop0] hiFromNetwork emptyConversation)) =
      [hiFromNetwork; hiFromNetwork] ∧
    allMessages
      (deliver [loop0; loop1] hiFromNetwork
         (deliver [loop0] hiFromNetwork emptyConversation)) =
      [ofConfirmed hiFromNetwork; ofConfirmed hiFromNetwork] ∧
    conversationMessages
      (onStreamMessage loop0 hiFromNetwork
         (onStreamMessage loop0 hiFromNetwork emptyConversation)) =
      [hiFromNetwork; hiFromNetwork].
Proof.
  exists (mkStreamLoop [] []), (mkStreamLoop [hiFromNetwork] []).
  by vm_compute.
Qed.

(** A message that the network delivers once reaches both loops, and both
    append it: neither saw its identifier when it started. *)
Example second_message_appended_by_both_loops :
  conversationMessages
    (deliver [mkStreamLoop [] []; mkStreamLoop [hiFromNetwork] []]
       (mkConfirmed "m2" "there" "0xB" (Some 8))
       (deliver [mkStreamLoop [] []] hiFromNetwork emptyConversation)) =
  [hiFromNetwork; mkConfirmed "m2" "there" "0xB" (Some 8);
   mkConfirmed "m2" "there" "0xB" (Some 8)].
Proof. reflexivity. Qed.

(** A loop that starts from the present state skips what the state holds. *)
Lemma fresh_loop_skips_known s loop message m :
  streamEffect s = Some loop →
  m ∈ conversationMessages s → cm_id m = cm_id message →
  onStreamMessage loop message s = s.
Proof.
  unfold streamEffect. case_match; [|done]. intros [= <-] Hin Hid.
  by eapply onStreamMessage_seen.
Qed.

(** * Further properties of the component *)

(** ** Addresses *)

Lemma isHexDigit_not_whiteSpace c : isHexDigit c = true → isWhiteSpace c = false.
Proof. by destruct c as [[] [] [] [] [] [] [] []]. Qed.

Lemma isHexDigit_lowerCodeUnit c :
  isHexDigit c = true → isHexDigit (lowerCodeUnit c) = true.
Proof. by destruct c as [[] [] [] [] [] [] [] []]. Qed.

Lemma hexDigits_length n s : hexDigits n s = true → String.length s = n.
Proof.
  revert s. induction n as [|n IH]; intros [|c r]; simpl; try done.
  intros [_ Hr]%andb_true_iff. by rewrite (IH r).
Qed.

Lemma hexDigits_toLowerCase n s :
  hexDigits n s = true → hexDigits n (toLowerCase s) = true.
Proof.
  revert s. induction n as [|n IH]; intros [|c r]; simpl; try done.
  intros [Hc Hr]%andb_true_iff.
  by rewrite isHexDigit_lowerCodeUnit, IH.
Qed.

Lemma trimStart_cons c r :
  isWhiteSpace c = false → trimStart (String c r) = String c r.
Proof. intros Hc. simpl. by rewrite Hc. Qed.

Lemma trimEnd_cons c r :
  isWhiteSpace c = false → trimEnd (String c r) = String c (trimEnd r).
Proof. intros Hc. simpl. destruct (trimEnd r); by rewrite ?Hc. Qed.

Lemma trimEnd_hexDigits n s : hexDigits n s = true → trimEnd s = s.
Proof.
  revert s. induction n as [|n IH]; intros [|c r]; try done.
  simpl hexDigits. intros [Hc Hr]%andb_true_iff.
  rewrite trimEnd_cons by by apply isHexDigit_not_whiteSpace.
  by rewrite (IH r).
Qed.

Lemma isValidEthereumAddress_inv address :
  isValidEthereumAddress address = true →
  ∃ c0 c1 r, address = String c0 (String c1 r) ∧
             String c0 (String c1 EmptyString) = "0x" ∧ hexDigits 40 r = true.
Proof.
  destruct address as [|c0 [|c1 r]]; try done. unfold isValidEthereumAddress.
  intros [Hpre%bool_decide_eq_true Hr]%andb_true_iff. by exists c0, c1, r.
Qed.

Lemma valid_address_trim address :
  isValidEthereumAddress address = true → trim address = address.
Proof.
  intros (c0 & c1 & r & -> & Hpre & Hr)%isValidEthereumAddress_inv.
  injection Hpre as -> ->.
  unfold trim. rewrite trimStart_cons by done.
  rewrite !trimEnd_cons by done. by rewrite (trimEnd_hexDigits 40).
Qed.

Lemma valid_address_not_blank address :
  isValidEthereumAddress address = true → blank address = false.
Proof.
  intros Hvalid. unfold blank. rewrite valid_address_trim by done.
  apply bool_decide_eq_false_2. by destruct address.
Qed.

(** X1. An address that [isValidEthereumAddress] accepts has 42 code units,
    [trim] leaves it as it is (it has no white space at either end, and it
    is not blank), and its lower-case form is accepted too. *)
Theorem valid_address_shape (address : string) :
  isValidEthereumAddress address = true →
  String.length address = 42%nat ∧
  trim address = address ∧
  blank address = false ∧
  isValidEthereumAddress (toLowerCase address) = true.
Proof.
  intros Hvalid. split_and!.
  - apply isValidEthereumAddress_inv in Hvalid as (c0 & c1 & r & -> & _ & Hr).
    simpl. by rewrite (hexDigits_length 40).
  - by apply valid_address_trim.
  - by apply valid_address_not_blank.
  - apply isValidEthereumAddress_inv in Hvalid as (c0 & c1 & r & -> & Hpre & Hr).
    injection Hpre as -> ->. unfold isValidEthereumAddress. cbn [toLowerCase].
    apply andb_true_iff. split; [done|by apply hexDigits_toLowerCase].
Qed.

Lemma valid_address_shape_witness : trim addressA = addressA.
Proof. apply (valid_address_shape addressA). reflexivity. Defined.

(** ** Contacts *)

Lemma contactExists_false address l :
  contactExists address l = false ↔
  toLowerCase address ∉ (λ c, toLowerCase (identity c)) <$> l.
Proof.
  unfold contactExists. induction l as [|c l IH]; simpl.
  - split; [intros _; apply not_elem_of_nil|done].
  - rewrite orb_false_iff, IH, bool_decide_eq_false, not_elem_of_cons.
    split; (intros [H1 H2]; split; [congruence|done]).
Qed.

(** X2. [addContact] adds nothing when the address is blank, is not of the
    right form, is the identity of a contact up to the case of the letters,
    or is not reachable (also when the reachability check threw): the cells
    of the message handlers and the typed address stay as they were, and an
    alert is shown but for the blank address. *)
Theorem addContact_rejects (canMessage : Settled bool)
    (created : option Conversation) (history : option (list ConfirmedMessage))
    (c : Component) :
  blank (newContactAddress c) = true ∨
  isValidEthereumAddress (newContactAddress c) = false ∨
  contactExists (newContactAddress c) (contacts (core c)) = true ∨
  checkContactReachability canMessage (core c) = false →
  let r := addContact canMessage created history c in
  core (fst r) = core c ∧
  newContactAddress (fst r) = newContactAddress c ∧
  (snd r = None ↔ blank (newContactAddress c) = true).
Proof.
  intros Hcase r. subst r. unfold addContact.
  destruct (blank _) eqn:Hblank; [done|].
  destruct (isValidEthereumAddress _) eqn:Hvalid; simpl; [|done].
  destruct (contactExists _ _) eqn:Hexists; [done|].
  destruct (checkContactReachability _ _) eqn:Hreach; [|done].
  by destruct Hcase as [?|[?|[?|?]]].
Qed.

Lemma addContact_rejects_witness :
  snd (addContact (Value true) None None
         (setNewContactAddress (addressA +:+ " ") initial))
  = Some "Please enter a valid Ethereum address".
Proof.
  pose proof (addContact_rejects (Value true) None None
                (setNewContactAddress (addressA +:+ " ") initial)) as H.
  destruct H as (_ & _ & _); [right; left; reflexivity|]. reflexivity.
Defined.

(** X3. [addContact] with an address of the right form that is no contact
    yet and is reachable appends the contact, with the address as identity
    and as inbox id, empties the address input, shows no alert, ends with
    [loading] unset and then does what [createNewDM] does: when the
    conversation is created it is the active one. *)
Theorem addContact_adds (canMessage : Settled bool)
    (created : option Conversation) (history : option (list ConfirmedMessage))
    (c : Component) :
  isValidEthereumAddress (newContactAddress c) = true →
  contactExists (newContactAddress c) (contacts (core c)) = false →
  checkContactReachability canMessage (core c) = true →
  let r := addContact canMessage created history c in
  let newContact := mkContact (newContactAddress c) (newContactAddress c) in
  contacts (core (fst r)) = contacts (core c) ++ [newContact] ∧
  newContactAddress (fst r) = "" ∧ loading (fst r) = false ∧ snd r = None ∧
  core (fst r) =
    createNewDM created history
      (setContacts (λ prev, prev ++ [newContact]) (core c)) ∧
  (∀ conversation, created = Some conversation →
     activeConversation (core (fst r)) = Some conversation).
Proof.
  intros Hvalid Hexists Hreach r newContact. subst r newContact.
  assert (client (core c) = true) as Hclient.
  { unfold checkContactReachability in Hreach. by destruct (client (core c)). }
  unfold addContact.
  rewrite (valid_address_not_blank _ Hvalid).
  rewrite Hvalid, Hexists, Hreach. simpl.
  unfold createNewDM. simpl. rewrite Hclient.
  split_and!; try done.
  - by destruct created, history.
  - intros conversation ->. by destruct history.
Qed.

Lemma addContact_adds_witness :
  contacts (core (fst (addContact (Value true) (Some (Conv 1)) (Some [])
    (setNewContactAddress addressA (withCore (setClient true) initial)))))
  = [mkContact addressA addressA].
Proof.
  apply (addContact_adds (Value true) (Some (Conv 1)) (Some [])
           (setNewContactAddress addressA (withCore (setClient true) initial)));
    reflexivity.
Defined.

(** The address of a contact, typed again with one letter in upper case, is
    refused. *)
Example same_address_other_case :
  snd (addContact (Value true) None None
         (setNewContactAddress addressA'
            (fst (addContact (Value true) None None
                    (setNewContactAddress addressA
                       (withCore (setClient true) initial))))))
  = Some "Contact already exists".
Proof. reflexivity. Qed.

(** *** What the handlers leave alone *)

(** The handlers of the messages do not write [contacts]. *)
Lemma createNewDM_contacts created history s :
  contacts (createNewDM created history s) = contacts s.
Proof. unfold createNewDM, loadMessages. by repeat case_match. Qed.

Lemma createNewGroup_contacts created history s :
  contacts (createNewGroup created history s) = contacts s.
Proof. unfold createNewGroup, loadMessages. by repeat case_match. Qed.

Lemma sendMessage_contacts now date transport history s :
  contacts (sendMessage now date transport history s) = contacts s.
Proof.
  unfold sendMessage, sendMessage_begin, sendMessage_sent, loadMessages.
  repeat case_match; simplify_eq; done.
Qed.

Lemma retryFailedMessage_contacts messageId transport history s :
  contacts (retryFailedMessage messageId transport history s) = contacts s.
Proof.
  unfold retryFailedMessage, retryFailedMessage_begin, retryFailedMessage_sent,
    loadMessages.
  repeat case_match; simplify_eq; done.
Qed.

Lemma onStreamMessage_contacts loop message s :
  contacts (onStreamMessage loop message s) = contacts s.
Proof. unfold onStreamMessage. by case_match. Qed.

Lemma connectWallet_contacts w c :
  contacts (core (connectWallet w c)) = contacts (core c).
Proof. unfold connectWallet. by repeat case_match. Qed.

(** One action either leaves [contacts] as it is or is an [addContact] that
    appends a contact of a valid address that was not there. *)
Lemma act_contacts a c :
  contacts (core (act a c)) = contacts (core c) ∨
  ∃ address,
    isValidEthereumAddress address = true ∧
    contactExists address (contacts (core c)) = false ∧
    contacts (core (act a c)) = contacts (core c) ++ [mkContact address address].
Proof.
  destruct a; simpl;
    auto using connectWallet_contacts, createNewDM_contacts,
      createNewGroup_contacts, sendMessage_contacts,
      retryFailedMessage_contacts, onStreamMessage_contacts.
  unfold addContact.
  destruct (blank _); [by left|].
  destruct (isValidEthereumAddress _) eqn:Hvalid; simpl; [|by left].
  destruct (contactExists _ _) eqn:Hexists; [by left|].
  destruct (checkContactReachability _ _); [|by left].
  right. exists (newContactAddress c). split_and!; [done..|].
  simpl. by rewrite createNewDM_contacts.
Qed.

Lemma run_snoc actions a c : run (actions ++ [a]) c = act a (run actions c).
Proof. unfold run. by rewrite foldl_app. Qed.

(** X4. Whatever happens to the component from its first state on, every
    contact has an address of the right form as identity and as inbox id,
    and no two contacts have identities that are equal up to the case of
    the letters. *)
Theorem contacts_valid_and_distinct (actions : list Action) :
  contactsOk (contacts (core (run actions initial))).
Proof.
  induction actions as [|a actions IH] using rev_ind.
  - split; [constructor|simpl; constructor].
  - rewrite run_snoc.
    destruct (act_contacts a (run actions initial))
      as [->|(address & Hvalid & Hexists & ->)]; [done|].
    destruct IH as [Hall Hdup]. split.
    + apply Forall_app. split; [done|]. by repeat constructor.
    + rewrite fmap_app. apply NoDup_app. split_and!; [done| |].
      * intros x Hx Hin. simpl in Hin. apply list_elem_of_singleton in Hin as ->.
        by apply contactExists_false in Hexists.
      * simpl. apply NoDup_singleton.
Qed.

(** X5. Contacts are never removed and never change place: the contacts
    before a run are, in their order, the first contacts after it. *)
Theorem contacts_only_grow (actions : list Action) (c : Component) :
  contacts (core c) `prefix_of` contacts (core (run actions c)).
Proof.
  induction actions as [|a actions IH] using rev_ind; [done|].
  rewrite run_snoc.
  destruct (act_contacts a (run actions c)) as [->|(address & _ & _ & ->)];
    [done|].
  by apply prefix_app_r.
Qed.

(** ** What holds of every pending message *)

Lemma Forall_filter_keep {A} (P Q : A → Prop) `{!∀ x, Decision (Q x)} (l : list A) :
  Forall P l → Forall P (filter Q l).
Proof.
  rewrite !Forall_forall. intros Hall x [_ Hx]%list_elem_of_filter. auto.
Qed.

Section PendingInvariant.
Context (P : OptimisticMessage → Prop).
Hypothesis P_withStatus : ∀ st p, P p → P (withStatus st p).

Lemma markStatus_Forall messageId st l :
  Forall P l → Forall P (markStatus messageId st l).
Proof.
  intros Hl. apply Forall_fmap. eapply Forall_impl; [exact Hl|].
  intros p Hp. simpl. case_decide; auto.
Qed.

Lemma loadMessages_Forall conversation history s :
  Forall P (optimisticMessages s) →
  Forall P (optimisticMessages (loadMessages conversation history s)).
Proof.
  intros Hl. destruct conversation, history; simpl; try done.
  by apply Forall_filter_keep.
Qed.

Lemma createNewDM_Forall created history s :
  Forall P (optimisticMessages s) →
  Forall P (optimisticMessages (createNewDM created history s)).
Proof.
  intros Hl. unfold createNewDM. destruct (client s), created; try done.
  by apply loadMessages_Forall.
Qed.

Lemma createNewGroup_Forall created history s :
  Forall P (optimisticMessages s) →
  Forall P (optimisticMessages (createNewGroup created history s)).
Proof.
  intros Hl. unfold createNewGroup. case_match; [|done].
  destruct created; [|done]. by apply loadMessages_Forall.
Qed.

Lemma retryFailedMessage_Forall messageId transport history s :
  Forall P (optimisticMessages s) →
  Forall P (optimisticMessages (retryFailedMessage messageId transport history s)).
Proof.
  intros Hl. unfold retryFailedMessage, retryFailedMessage_begin.
  destruct (find _ _), (activeConversation s); try done.
  destruct transport.
  - apply loadMessages_Forall. simpl. by do 2 apply markStatus_Forall.
  - simpl. by do 2 apply markStatus_Forall.
Qed.

Lemma sendMessage_Forall now date transport history s :
  (blank (messageContent s) = false →
   P (mkOptimistic (tempIdOf now) (messageContent s)
        (default "" (accountIdentifier s)) Unpublished date)) →
  Forall P (optimisticMessages s) →
  Forall P (optimisticMessages (sendMessage now date transport history s)).
Proof.
  intros Hnew Hl. unfold sendMessage.
  destruct (sendMessage_begin now date s) as [[call s1]|] eqn:Hbegin; [|done].
  apply sendMessage_begin_Some in Hbegin
    as (conversation & _ & Hblank & _ & -> & ->).
  assert (Forall P (optimisticMessages s ++
            [mkOptimistic (tempIdOf now) (messageContent s)
               (default "" (accountIdentifier s)) Unpublished date])) as Hall.
  { apply Forall_app. split; [done|]. repeat constructor. auto. }
  destruct transport.
  - unfold sendMessage_sent. cbn [optimisticMessages setIsSending].
    apply loadMessages_Forall. simpl. by apply markStatus_Forall.
  - simpl. by apply markStatus_Forall.
Qed.

Lemma act_Forall a c :
  (∀ now date content sender,
     blank content = false →
     P (mkOptimistic (tempIdOf now) content sender Unpublished date)) →
  Forall P (optimisticMessages (core c)) →
  Forall P (optimisticMessages (core (act a c))).
Proof.
  intros Hnew Hl. destruct a; simpl; try done.
  - unfold connectWallet. by repeat case_match.
  - unfold addContact. repeat case_match; simpl; try done.
    by apply createNewDM_Forall.
  - by apply createNewDM_Forall.
  - by apply createNewGroup_Forall.
  - apply sendMessage_Forall; auto.
  - by apply retryFailedMessage_Forall.
  - by apply Forall_filter_keep.
  - by rewrite onStreamMessage_optimistic.
Qed.
End PendingInvariant.

(** X6. Whatever happens to the component from its first state on, every
    pending message has content that is not blank and an identifier made of
    [optimistic-] and a clock reading. *)
Theorem pending_well_formed (actions : list Action) :
  Forall pendingOk (optimisticMessages (core (run actions initial))).
Proof.
  induction actions as [|a actions IH] using rev_ind; [constructor|].
  rewrite run_snoc. apply act_Forall; [| |done].
  - intros st p [Hcontent Hid]. by split.
  - intros now date content sender Hblank. split; [done|]. by exists now.
Qed.

(** ** Connecting the wallet *)

(** X7. [connectWallet] ends with [loading] unset. The connected screen is
    reached exactly when the provider is there, it gives at least one
    account, and the signer and the client are obtained; then the first
    account is the identifier and [error] is empty. In every other case
    the client is unset and [error] holds a message, also when the
    component was connected before. *)
Theorem connectWallet_outcome (w : Wallet) (c : Component) :
  let c' := connectWallet w c in
  loading c' = false ∧
  connected c' = walletAnswers w ∧
  (walletAnswers w = true →
     error c' = None ∧
     ∃ address rest, requestAccounts w = Value (address :: rest) ∧
       accountIdentifier (core c') = Some address) ∧
  (walletAnswers w = false → client (core c') = false ∧ is_Some (error c')).
Proof.
  intros c'. subst c'. unfold connectWallet, walletAnswers, connected.
  destruct w as [eth accounts sig cli]. cbn [ethereum requestAccounts getSigner createClient].
  destruct eth; cbn [negb andb].
  - destruct accounts as [[|address rest]|e1]; [| |];
      [|destruct sig as [[]|e2]; [destruct cli as [[]|e3]|]|];
      cbn; rewrite ?andb_false_r; split_and!; try done; eauto.
  - cbn; rewrite ?andb_false_r; split_and!; try done; eauto.
Qed.

Lemma connectWallet_outcome_witness :
  error (connectWallet (mkWallet true (Value []) (Value ()) (Value ())) initial)
  = Some "No accounts found".
Proof.
  pose proof (connectWallet_outcome
                (mkWallet true (Value []) (Value ()) (Value ())) initial)
    as (_ & _ & _ & H).
  destruct (H eq_refl) as [_ _]. reflexivity.
Defined.

(** ** More on sending *)

Lemma filter_markStatus_Published messageId l :
  filter (λ msg, om_status msg ≠ Published) (markStatus messageId Published l) =
  filter (λ msg, om_id msg ≠ messageId ∧ om_status msg ≠ Published) l.
Proof.
  induction l as [|p l IH]; [done|].
  unfold markStatus in *. rewrite fmap_cons, !filter_cons, IH.
  repeat case_decide; simpl in *; try done; exfalso; intuition congruence.
Qed.

Lemma markStatus_absent messageId st l :
  (∀ p, p ∈ l → om_id p ≠ messageId) → markStatus messageId st l = l.
Proof.
  intros Habsent. induction l as [|p l IH]; [done|].
  unfold markStatus in *. rewrite fmap_cons.
  rewrite decide_False by (apply Habsent; by left).
  f_equal. apply IH. intros q Hq. apply Habsent. by right.
Qed.

Lemma filter_id_absent messageId (l : list OptimisticMessage) :
  (∀ p, p ∈ l → om_id p ≠ messageId) →
  filter (λ msg, om_id msg ≠ messageId) l = l.
Proof.
  intros Habsent. induction l as [|p l IH]; [done|].
  rewrite filter_cons_True by (apply Habsent; by left).
  f_equal. apply IH. intros q Hq. apply Habsent. by right.
Qed.

(** X8. A send that was accepted, whose transport call succeeded and whose
    refresh succeeded: the confirmed sequence is the fetched history, no
    pending message has the identifier of the send any more (the pending set
    is what it was, without the Published messages and without those of that
    identifier), the input is empty and [isSending] is unset. *)
Theorem send_then_refresh (now date : Z) (s : State) (call : SendCall)
    (s1 : State) (history : list ConfirmedMessage) :
  sendMessage_begin now date s = Some (call, s1) →
  let s' := sendMessage now date Resolved (Some history) s in
  conversationMessages s' = history ∧
  optimisticMessages s' =
    filter (λ msg, om_id msg ≠ tempIdOf now ∧ om_status msg ≠ Published)
      (optimisticMessages s) ∧
  messageContent s' = "" ∧ isSending s' = false.
Proof.
  intros Hbegin s'. subst s'. unfold sendMessage. rewrite Hbegin.
  apply sendMessage_begin_Some in Hbegin as (conversation & _ & _ & _ & -> & ->).
  split_and!; try done.
  cbn -[markStatus filter]. rewrite filter_markStatus_Published, filter_app.
  rewrite filter_cons_False by (intros [? ?]; done). apply app_nil_r.
Qed.

Lemma send_then_refresh_witness :
  optimisticMessages (sendMessage 5 5 Resolved (Some [hiFromNetwork]) typedHi) = [].
Proof.
  pose proof (send_then_refresh 5 5 typedHi
                (mkSendCall "optimistic-5" "hi" (Conv 1)) sendingHi
                [hiFromNetwork] eq_refl) as (_ & H & _).
  rewrite H. reflexivity.
Defined.

(** X9. A send that was accepted and whose transport call succeeded, but
    whose refresh threw: the confirmed sequence is as it was, and the
    message stays in the pending set and in the merged list with status
    Published, with neither a Retry nor a Cancel button. *)
Theorem send_published_waits_for_refresh (now date : Z) (s : State)
    (call : SendCall) (s1 : State) :
  sendMessage_begin now date s = Some (call, s1) →
  let s' := sendMessage now date Resolved None s in
  let published := mkOptimistic (tempIdOf now) (messageContent s)
                     (default "" (accountIdentifier s)) Published date in
  conversationMessages s' = conversationMessages s ∧
  published ∈ optimisticMessages s' ∧
  ofOptimistic published ∈ allMessages s' ∧
  buttonsOffered (ofOptimistic published) = false.
Proof.
  intros Hbegin s' published. subst s'. unfold sendMessage. rewrite Hbegin.
  apply sendMessage_begin_Some in Hbegin as (conversation & _ & _ & _ & -> & ->).
  assert (published ∈ optimisticMessages
            (sendMessage_sent (mkSendCall (tempIdOf now) (messageContent s) conversation)
               None
               (setMessageContent ""
                  (setOptimisticMessages
                     (λ prev, prev ++ [mkOptimistic (tempIdOf now) (messageContent s)
                                         (default "" (accountIdentifier s))
                                         Unpublished date])
                     (setIsSending true s))))) as Hin.
  { cbn -[markStatus]. rewrite markStatus_app. apply elem_of_app. right. cbn.
    rewrite decide_True by done. by left. }
  split_and!; [done|done| |done]. by apply ofOptimistic_elem_of.
Qed.

Lemma send_published_waits_for_refresh_witness :
  mkOptimistic "optimistic-5" "hi" "0xA" Published 5
    ∈ optimisticMessages (sendMessage 5 5 Resolved None typedHi).
Proof.
  apply (send_published_waits_for_refresh 5 5 typedHi
           (mkSendCall "optimistic-5" "hi" (Conv 1)) sendingHi).
  reflexivity.
Defined.

(** X10. A send that was accepted ends, whatever the transport and the
    refresh answered, with the input empty and [isSending] unset, and with
    the conversation, the client and the account as they were: the typed
    text is gone from the input also when the send failed. *)
Theorem send_ends_idle (now date : Z) (s : State) (call : SendCall) (s1 : State)
    (transport : Outcome) (history : option (list ConfirmedMessage)) :
  sendMessage_begin now date s = Some (call, s1) →
  let s' := sendMessage now date transport history s in
  messageContent s' = "" ∧ isSending s' = false ∧
  activeConversation s' = activeConversation s ∧
  client s' = client s ∧ accountIdentifier s' = accountIdentifier s.
Proof.
  intros Hbegin s'. subst s'. unfold sendMessage. rewrite Hbegin.
  apply sendMessage_begin_Some in Hbegin as (conversation & _ & _ & _ & -> & ->).
  by destruct transport, history.
Qed.

Lemma send_ends_idle_witness :
  messageContent (sendMessage 5 5 Rejected None typedHi) = "".
Proof.
  apply (send_ends_idle 5 5 typedHi
           (mkSendCall "optimistic-5" "hi" (Conv 1)) sendingHi Rejected None).
  reflexivity.
Defined.

(** X11. The Send button is enabled exactly when [sendMessage] would go
    on to the transport: with a conversation open, the condition that
    disables the button is the guard of the handler. *)
Theorem send_button_matches_guard (now date : Z) (s : State) :
  is_Some (sendMessage_begin now date s) ↔
  is_Some (activeConversation s) ∧ sendDisabled s = false.
Proof.
  unfold sendMessage_begin, sendDisabled.
  destruct (activeConversation s) as [conversation|].
  - destruct (blank _ || isSending s); split.
    + by intros [? ?].
    + by intros [_ ?].
    + by intros _; split.
    + by intros _.
  - split; [by intros [? ?]|by intros [[? ?] _]].
Qed.

(** X12. A send whose transport call failed, followed by Cancel on its
    identifier, leaves the pending set and the merged list as they were
    before the send, when no pending message had that identifier. *)
Theorem failed_send_then_cancel (now date : Z) (s : State) (call : SendCall)
    (s1 : State) (history : option (list ConfirmedMessage)) :
  sendMessage_begin now date s = Some (call, s1) →
  (∀ p, p ∈ optimisticMessages s → om_id p ≠ tempIdOf now) →
  let s' := cancelFailedMessage (tempIdOf now)
              (sendMessage now date Rejected history s) in
  optimisticMessages s' = optimisticMessages s ∧ allMessages s' = allMessages s.
Proof.
  intros Hbegin Hfresh s'. subst s'. unfold sendMessage. rewrite Hbegin.
  apply sendMessage_begin_Some in Hbegin as (conversation & _ & _ & _ & -> & ->).
  assert (optimisticMessages
            (cancelFailedMessage (tempIdOf now)
               (sendMessage_failed
                  (mkSendCall (tempIdOf now) (messageContent s) conversation)
                  (setMessageContent ""
                     (setOptimisticMessages
                        (λ prev, prev ++ [mkOptimistic (tempIdOf now) (messageContent s)
                                            (default "" (accountIdentifier s))
                                            Unpublished date])
                        (setIsSending true s))))) = optimisticMessages s) as Hopt.
  { cbn -[markStatus filter]. rewrite markStatus_app, filter_app.
    cbn -[filter]. rewrite decide_True by done. rewrite filter_cons_False by (intros ?; done).
    rewrite filter_nil, app_nil_r, markStatus_absent by done.
    by apply filter_id_absent. }
  split; [done|]. unfold allMessages, combined. by rewrite Hopt.
Qed.

Lemma failed_send_then_cancel_witness :
  allMessages (cancelFailedMessage "optimistic-5"
                 (sendMessage 5 5 Rejected None typedHi)) = allMessages typedHi.
Proof.
  apply (failed_send_then_cancel 5 5 typedHi
           (mkSendCall "optimistic-5" "hi" (Conv 1)) sendingHi None);
    [reflexivity|].
  intros p Hp. by apply elem_of_nil in Hp.
Defined.

(** ** More on the merged list *)

(** X13. The merged list has one entry for each confirmed and each pending
    message, no more and no fewer; the line [No messages yet] is shown
    exactly when there is neither a confirmed nor a pending message. *)
Theorem allMessages_count (s : State) :
  length (allMessages s) =
    (length (conversationMessages s) + length (optimisticMessages s))%nat ∧
  (noMessagesShown s = true ↔
     conversationMessages s = [] ∧ optimisticMessages s = []).
Proof.
  assert (length (allMessages s) =
            (length (conversationMessages s) + length (optimisticMessages s))%nat)
    as Hlen.
  { rewrite allMessages_Permutation. unfold combined.
    by rewrite length_app, !length_fmap. }
  split; [done|]. unfold noMessagesShown. rewrite bool_decide_eq_true, Hlen.
  destruct (conversationMessages s), (optimisticMessages s); simpl; split;
    try done; try lia; by intros [? ?].
Qed.

(** X14. When the confirmed messages followed by the pending ones are
    already in ascending order of the timestamp (no message compares above
    a later one, a comparison with a [sent] that is no date counting as
    equal), the merged list is that sequence as it is: the sort moves
    nothing. *)
Theorem allMessages_of_ascending (s : State) :
  StronglySorted notAbove (combined s) →
  allMessages s = combined s.
Proof. intros Hsorted. by apply sort_of_sorted. Qed.

Lemma allMessages_of_ascending_witness :
  allMessages tiedState = combined tiedState.
Proof.
  apply allMessages_of_ascending.
  repeat first [apply SSorted_nil | apply SSorted_cons
               | apply Forall_nil_2 | apply Forall_cons_2];
    by vm_compute.
Defined.

(** ** More on the stream *)

(** X15. Messages of the stream are only appended: after one message
    reached any number of running loops, the confirmed sequence is what it
    was followed by copies of that message, at most one for each loop, and
    the pending set is as it was. *)
Theorem deliver_appends (loops : list StreamLoop) (message : ConfirmedMessage)
    (s : State) :
  optimisticMessages (deliver loops message s) = optimisticMessages s ∧
  ∃ k, (k ≤ length loops)%nat ∧
    conversationMessages (deliver loops message s) =
    conversationMessages s ++ replicate k message.
Proof.
  revert s. induction loops as [|loop loops IH]; intros s.
  - split; [done|]. exists 0%nat. split; [done|]. simpl. by rewrite app_nil_r.
  - destruct (IH (onStreamMessage loop message s)) as (Hopt & k & Hk & Hconv).
    unfold deliver in *. cbn [foldl]. split.
    + by rewrite Hopt, onStreamMessage_optimistic.
    + rewrite Hconv. unfold onStreamMessage. case_match.
      * exists (S k). split; [simpl; lia|]. cbn. by rewrite <-app_assoc.
      * exists k. split; [simpl; lia|done].
Qed.

Lemma streamEffect_Some s loop :
  streamEffect s = Some loop →
  loop = mkStreamLoop (conversationMessages s) (optimisticMessages s).
Proof. unfold streamEffect. case_match; congruence. Qed.

(** X16. A loop that starts from the present state skips a message whose
    identifier a confirmed or a pending message has, and appends any other
    one; and when the message is then delivered once more, to a loop that
    starts from the state so reached, it is skipped. *)
Theorem fresh_loop_appends_once (s : State) (loop0 : StreamLoop)
    (message : ConfirmedMessage) :
  streamEffect s = Some loop0 →
  let s1 := onStreamMessage loop0 message s in
  ((∃ m, m ∈ conversationMessages s ∧ cm_id m = cm_id message) ∨
   (∃ p, p ∈ optimisticMessages s ∧ om_id p = cm_id message) → s1 = s) ∧
  (¬ (∃ m, m ∈ conversationMessages s ∧ cm_id m = cm_id message) →
   ¬ (∃ p, p ∈ optimisticMessages s ∧ om_id p = cm_id message) →
   conversationMessages s1 = conversationMessages s ++ [message]) ∧
  (∀ loop1, streamEffect s1 = Some loop1 → onStreamMessage loop1 message s1 = s1).
Proof.
  intros Heff s1. subst s1. apply streamEffect_Some in Heff as ->.
  set (loop0 := mkStreamLoop (conversationMessages s) (optimisticMessages s)).
  assert ((∃ m, m ∈ conversationMessages s ∧ cm_id m = cm_id message) ∨
          (∃ p, p ∈ optimisticMessages s ∧ om_id p = cm_id message) →
          onStreamMessage loop0 message s = s) as Hknown.
  { intros Hid. unfold onStreamMessage, loop0.
    cbn [seenConversationMessages seenOptimisticMessages].
    destruct Hid as [Hid|Hid]; apply someId_true in Hid; rewrite Hid;
      [done|by rewrite andb_false_r]. }
  split_and!.
  - done.
  - intros Hn1 Hn2.
    apply onStreamMessage_unseen; unfold loop0;
      cbn [seenConversationMessages seenOptimisticMessages];
      apply not_true_is_false; by intros H%someId_true.
  - intros loop1 ->%streamEffect_Some.
    destruct (someId cm_id (cm_id message) (conversationMessages s)) eqn:Hconv.
    { rewrite Hknown by (left; by apply someId_true).
      apply Hknown. left. by apply someId_true. }
    destruct (someId om_id (cm_id message) (optimisticMessages s)) eqn:Hopt.
    { rewrite Hknown by (right; by apply someId_true).
      apply Hknown. right. by apply someId_true. }
    eapply onStreamMessage_seen; [|reflexivity].
    cbn [seenConversationMessages].
    rewrite (onStreamMessage_unseen loop0) by done.
    apply elem_of_app. right. by left.
Qed.

Lemma fresh_loop_appends_once_witness :
  conversationMessages
    (onStreamMessage (mkStreamLoop [] []) hiFromNetwork emptyConversation)
  = [hiFromNetwork].
Proof.
  destruct (fresh_loop_appends_once emptyConversation (mkStreamLoop [] [])
              hiFromNetwork eq_refl) as (_ & H & _).
  rewrite H; [reflexivity| |]; intros (x & Hx & _); by apply elem_of_nil in Hx.
Defined.

(** ** More on cancel and retry *)

Lemma cancelFailedMessage_absent messageId s :
  (∀ p, p ∈ optimisticMessages s → om_id p ≠ messageId) →
  cancelFailedMessage messageId s = s.
Proof.
  intros Habsent. destruct s. unfold cancelFailedMessage, setOptimisticMessages.
  cbn in *. by rewrite filter_id_absent.
Qed.

(** X17. Cancel on an identifier that no pending message has changes
    nothing; Cancel twice is Cancel once; and two Cancels can be done in
    either order. *)
Theorem cancel_absent_idempotent_commutes (id1 id2 : string) (s : State) :
  ((∀ p, p ∈ optimisticMessages s → om_id p ≠ id1) →
   cancelFailedMessage id1 s = s) ∧
  cancelFailedMessage id1 (cancelFailedMessage id1 s) = cancelFailedMessage id1 s ∧
  cancelFailedMessage id1 (cancelFailedMessage id2 s) =
  cancelFailedMessage id2 (cancelFailedMessage id1 s).
Proof.
  split_and!.
  - apply cancelFailedMessage_absent.
  - apply cancelFailedMessage_absent. intros p Hp. cbn in Hp.
    by apply list_elem_of_filter in Hp as [? _].
  - unfold cancelFailedMessage, setOptimisticMessages. cbn. f_equal.
    by rewrite !list_filter_filter, (list_filter_iff _ (λ x, om_id x ≠ id2 ∧ om_id x ≠ id1))
      by (intros x; tauto).
Qed.

Lemma cancel_absent_idempotent_commutes_witness :
  cancelFailedMessage "optimistic-9" failedHi = failedHi.
Proof.
  apply (proj1 (cancel_absent_idempotent_commutes "optimistic-9" "" failedHi)).
  intros p Hp. vm_compute in Hp. by apply list_elem_of_singleton in Hp as ->.
Defined.

(** X18. After Cancel on an identifier, Retry on that identifier does
    nothing: no pending message has it, the transport is not called and the
    state stays as it is. *)
Theorem retry_after_cancel (messageId : string) (transport : Outcome)
    (history : option (list ConfirmedMessage)) (s : State) :
  retryFailedMessage_begin messageId (cancelFailedMessage messageId s) = None ∧
  retryFailedMessage messageId transport history (cancelFailedMessage messageId s) =
  cancelFailedMessage messageId s.
Proof.
  assert (retryFailedMessage_begin messageId (cancelFailedMessage messageId s) = None)
    as Hnone.
  { unfold retryFailedMessage_begin.
    assert (find (λ msg, bool_decide (om_id msg = messageId))
              (optimisticMessages (cancelFailedMessage messageId s)) = None) as ->; [|done].
    apply find_id_None. intros p Hp. cbn in Hp.
    by apply list_elem_of_filter in Hp as [? _]. }
  split; [done|]. unfold retryFailedMessage. by rewrite Hnone.
Qed.

(** X19. A retry whose transport call and whose refresh succeed: the
    confirmed sequence is the fetched history and no pending message has
    the identifier any more (the pending set is what it was, without the
    Published messages and without those of that identifier). A retry, in
    every case, leaves [isSending], the input and the conversation as they
    were. *)
Theorem retry_then_refresh (messageId : string) (s : State)
    (p : OptimisticMessage) (conversation : Conversation)
    (history : list ConfirmedMessage) :
  p ∈ optimisticMessages s → om_id p = messageId →
  activeConversation s = Some conversation →
  let s' := retryFailedMessage messageId Resolved (Some history) s in
  conversationMessages s' = history ∧
  optimisticMessages s' =
    filter (λ msg, om_id msg ≠ messageId ∧ om_status msg ≠ Published)
      (optimisticMessages s) ∧
  (∀ transport fetched,
     let s'' := retryFailedMessage messageId transport fetched s in
     isSending s'' = isSending s ∧ messageContent s'' = messageContent s ∧
     activeConversation s'' = activeConversation s).
Proof.
  intros Hp Hid Hconv s'. subst s'.
  destruct (find_id_elem_of messageId _ p Hp Hid) as (found & Hfind & _ & _).
  unfold retryFailedMessage, retryFailedMessage_begin. rewrite Hfind, Hconv.
  split_and!.
  - done.
  - cbn -[markStatus filter].
    by rewrite markStatus_twice, filter_markStatus_Published.
  - intros transport fetched. by destruct transport, fetched.
Qed.

Lemma retry_then_refresh_witness :
  optimisticMessages
    (retryFailedMessage "optimistic-5" Resolved (Some [hiFromNetwork]) failedHi) = [].
Proof.
  pose proof (retry_then_refresh "optimistic-5" failedHi
                (mkOptimistic "optimistic-5" "hi" "0xA" Failed 5) (Conv 1)
                [hiFromNetwork]) as H.
  destruct H as (_ & H & _); [in_list|reflexivity|reflexivity|].
  rewrite H. reflexivity.
Defined.

(** ** The two variants of [sendMessage] *)

(** X20. With no send in flight, the variant with optimistic messages and
    the variant without leave the same confirmed sequence and the same
    conversation, whatever the transport and the refresh answered; when the
    transport succeeded they leave the same input too. When it failed, the
    variant without optimistic messages changes nothing. *)
Theorem variants_agree (now date : Z) (transport : Outcome)
    (history : option (list ConfirmedMessage)) (s : State) :
  isSending s = false →
  let s1 := sendMessage now date transport history s in
  let s2 := Plain.sendMessage transport history s in
  conversationMessages s1 = conversationMessages s2 ∧
  activeConversation s1 = activeConversation s2 ∧
  (transport = Resolved → messageContent s1 = messageContent s2) ∧
  (transport = Rejected → s2 = s).
Proof.
  intros Hidle s1 s2. subst s1 s2.
  unfold sendMessage, sendMessage_begin, Plain.sendMessage. rewrite Hidle.
  destruct (activeConversation s) as [conversation|] eqn:Hconv; [|done].
  rewrite orb_false_r. destruct (blank (messageContent s)); [done|].
  destruct transport, history; cbn; by rewrite ?Hconv.
Qed.

Lemma variants_agree_witness :
  conversationMessages (sendMessage 5 5 Resolved (Some [hiFromNetwork]) typedHi) =
  conversationMessages (Plain.sendMessage Resolved (Some [hiFromNetwork]) typedHi).
Proof.
  apply (variants_agree 5 5 Resolved (Some [hiFromNetwork]) typedHi). reflexivity.
Defined.

(** ** More on opening conversations and refreshing *)

(** X21. The group button is shown exactly when [createNewGroup] passes its
    test on the contacts: without the button the handler changes nothing,
    and with it and a client it does what [createNewDM] does with the
    conversation it was given. *)
Theorem createNewGroup_matches_button (created : option Conversation)
    (history : option (list ConfirmedMessage)) (s : State) :
  (groupButtonShown s = false → createNewGroup created history s = s) ∧
  (groupButtonShown s = true →
   createNewGroup created history s = createNewDM created history s).
Proof.
  unfold groupButtonShown, createNewGroup, createNewDM. split; intros ->.
  - by rewrite andb_false_r.
  - by rewrite andb_true_r.
Qed.

Lemma createNewGroup_matches_button_witness :
  createNewGroup (Some (Conv 3)) (Some []) failedHi = failedHi.
Proof.
  apply (proj1 (createNewGroup_matches_button (Some (Conv 3)) (Some []) failedHi)).
  reflexivity.
Defined.

(** X22. A refresh that succeeded overrides what any earlier refresh did:
    the state after it is the same whether or not another refresh, of any
    conversation and with any answer, ran before it. In particular the same
    refresh run twice is that refresh run once. *)
Theorem last_refresh_wins (conversation1 : option Conversation)
    (history1 : option (list ConfirmedMessage)) (conversation2 : Conversation)
    (messages2 : list ConfirmedMessage) (s : State) :
  loadMessages (Some conversation2) (Some messages2)
    (loadMessages conversation1 history1 s) =
  loadMessages (Some conversation2) (Some messages2) s.
Proof.
  destruct conversation1, history1; try done.
  unfold loadMessages, loadMessages_resolved, setOptimisticMessages,
    setConversationMessages. cbn. f_equal.
  rewrite list_filter_filter. apply list_filter_iff. intros p. tauto.
Qed.
